(** * rxjs-snake: the reactive game-state pipeline of [src/index.ts]

    The program is one module that wires RxJS streams together.  Every
    notification is delivered synchronously and depth first, so the whole
    program is a state machine: the state holds what each operator of the
    source remembers ([scan] accumulators, the last value seen by
    [distinctUntilChanged], the latest values held by [withLatestFrom] and
    [combineLatest], the timer started by [interval], the two [let] globals),
    and there is one transition per external event (a millisecond passing, an
    animation frame, a key press, a click).

    Naming: the handler of a notification arriving at stream [foo$] of the
    source is [foo_next] here.

    The file has two parts: the definitions (data, operators, the imported
    modules, the pipeline, a concrete game), then the facts. *)

From Stdlib Require Import ZArith List Bool String Lia.
Import ListNotations.
Open Scope Z_scope.

(** ** Data model *)

(** [Point2D] of [./types]: a grid cell or a direction vector. *)
Record Point2D : Type := { x : Z; y : Z }.

Definition point_eqb (p q : Point2D) : bool := (x p =? x q) && (y p =? y q).

(** A JavaScript object compared with [===] is a value together with its
    identity.  [distinctUntilChanged()] without a comparator compares with
    [===], so two arrays with equal cells are still different values for it. *)
Record Obj (A : Type) : Type := { addr : nat; val : A }.
Arguments addr {A} _.
Arguments val {A} _.

Definition same {A} (a b : Obj A) : bool := Nat.eqb (addr a) (addr b).

(** Entries of the [DIRECTIONS] and [DIRECTIONS_BUTTON] tables. *)
Definition Direction : Type := Obj Point2D.

(** What [direction$] carries.  The source never looks inside these values:
    it hands them to [nextDirection] and [move] and compares them with
    [===].  A table is read with a key taken from the event, and the lookup
    goes through the prototype chain, so besides the entries of the tables a
    property of [Object.prototype] can pass [filter(direction => !!direction)]:
    an object with an identity and without [x] and [y]. *)
Definition Heading : Type := Obj (option Point2D).

Definition heading (d : Direction) : Heading :=
  {| addr := addr d; val := Some (val d) |}.
Coercion heading : Direction >-> Heading.
(** [Array<Point2D>], head first.  [snake$] is never compared by identity. *)
Definition Snake : Type := list Point2D.
(** The list of apples; [apples$] is piped through [distinctUntilChanged()]. *)
Definition Apples : Type := Obj (list Point2D).

(** The object built by [scene$]. *)
Record Scene : Type := { snake : Snake; apples : Apples; score : Z }.

(** The external events of the page. *)
Record KeyboardEvent : Type := { key : string; keyCode : Z }.

Inductive Event : Type :=
| KeyDown (e : KeyboardEvent)   (* fromEvent(document, 'keydown') *)
| Click (id : string)           (* fromEvent(document, 'click'), srcElement.id *)
| AnimationFrame                (* interval(1000 / FPS, animationFrame) fires *)
| Elapse.                       (* one millisecond passes *)

(** ** The RxJS operators the source pipes, as transition functions *)
Module Rx.

(** [scan(f)] without a seed: the first value becomes the accumulator and
    is emitted as it is; afterwards [f acc v]. *)
Definition scan {A} (f : A -> A -> A) (acc : option A) (v : A) : A :=
  match acc with
  | None => v
  | Some a => f a v
  end.

(** [distinctUntilChanged()]: does [v] pass, given the last value passed? *)
Definition distinctUntilChanged {A} (eqb : A -> A -> bool)
           (last : option A) (v : A) : bool :=
  match last with
  | None => true
  | Some l => negb (eqb l v)
  end.

(** A timer started by [interval(period)]. *)
Record Timer : Type := { tid : nat; period : Z; due : Z }.

(** Delays under one millisecond are served at the next millisecond. *)
Definition delay (p : Z) : Z := Z.max 1 p.

End Rx.
Import Rx.

(** What the program does that can be observed, newest first in the trace. *)
Inductive Obs : Type :=
| OSpeed (v : Z)              (* speedSubject.next(v), the value reaching switchMap *)
| OTick (t : Z)               (* ticks$ emits, at time t *)
| ODirection (d : Heading)    (* direction$ emits *)
| OPause (p : bool)           (* pause$ emits *)
| OLength (l : Z)             (* snakeLength$ emits *)
| OScore (z : Z)              (* score$ emits *)
| OSnake (s : Snake)          (* snake$ emits *)
| OApples (a : Apples)        (* apples$ emits *)
| OScene (s : Scene)          (* scene$ emits *)
| ORenderScene (s : Scene)    (* renderScene(ctx, scene) *)
| ORenderGameOver.            (* renderGameOver(ctx) *)

(** Life of the [game$] subscription, which owns the one subscription to
    [scene$] (and through it to [score$]). *)
Inductive Lifecycle : Type := Unsubscribed | Subscribed | Completed.

Definition live (l : Lifecycle) : bool :=
  match l with Subscribed => true | _ => false end.

(** ** The input tables of the two entry files

    A table is an object literal read with a key taken from the event.  The
    lookup answers with the own property of that name, else with the
    property of that name that the literal inherits from [Object.prototype],
    else with [undefined], which the [filter] drops. *)

Definition mkDirection (a : nat) (dx dy : Z) : Direction :=
  {| addr := a; val := {| x := dx; y := dy |} |}.

(** The properties every object literal inherits: the members of
    [Object.prototype] of the language standard, its Annex B included.  They
    are functions, and [__proto__] is the prototype itself: all truthy, none
    with [x] or [y]. *)
Definition Object_prototype_names : list string :=
  [ "constructor"; "hasOwnProperty"; "isPrototypeOf"; "propertyIsEnumerable";
    "toLocaleString"; "toString"; "valueOf"; "__proto__";
    "__defineGetter__"; "__defineSetter__"; "__lookupGetter__";
    "__lookupSetter__" ]%string.

(** The position of [k] in [names], counted from [n]. *)
Fixpoint position (k : string) (names : list string) (n : nat) : option nat :=
  match names with
  | [] => None
  | name :: rest =>
      if String.eqb k name then Some n else position k rest (S n)
  end.

(** The inherited property named [k]: one object for each name, the same
    one whichever table is read, and none of them an entry of a table (the
    entries have the addresses 0 to 7). *)
Definition Object_prototype (k : string) : option Heading :=
  match position k Object_prototype_names 8 with
  | Some a => Some {| addr := a; val := None |}
  | None => None
  end.

Module IndexTs.

(** [DIRECTIONS] of [src/index.ts], read as [DIRECTIONS[event.key]]. *)
Definition DIRECTIONS (k : string) : option Heading :=
  if String.eqb k "ArrowLeft" then Some (heading (mkDirection 0 (-1) 0))
  else if String.eqb k "ArrowRight" then Some (heading (mkDirection 1 1 0))
  else if String.eqb k "ArrowUp" then Some (heading (mkDirection 2 0 (-1)))
  else if String.eqb k "ArrowDown" then Some (heading (mkDirection 3 0 1))
  else Object_prototype k.

(** [DIRECTIONS_BUTTON], read as [DIRECTIONS_BUTTON[event.srcElement.id]]:
    other objects with the same coordinates. *)
Definition DIRECTIONS_BUTTON (id : string) : option Heading :=
  if String.eqb id "left" then Some (heading (mkDirection 4 (-1) 0))
  else if String.eqb id "right" then Some (heading (mkDirection 5 1 0))
  else if String.eqb id "up" then Some (heading (mkDirection 6 0 (-1)))
  else if String.eqb id "down" then Some (heading (mkDirection 7 0 1))
  else Object_prototype id.

(** [INITIAL_DIRECTION = DIRECTIONS['ArrowDown']] *)
Definition INITIAL_DIRECTION : Direction := mkDirection 3 0 1.

(** The [map] and [filter] at the head of [direction$]: the [map] reads
    the table of the kind of event, a click only when the [id] of its
    element is not empty, and the [filter] drops [undefined]. *)
Definition toDirection (e : Event) : option Heading :=
  match e with
  | KeyDown k => DIRECTIONS (key k)
  | Click id => if String.eqb id EmptyString then None else DIRECTIONS_BUTTON id
  | _ => None
  end.

(** [filter((event: KeyboardEvent) => event.key === ' ')] on [keydown$]. *)
Definition isPauseKey (e : Event) : bool :=
  match e with
  | KeyDown k => String.eqb (key k) " "
  | _ => false
  end.

End IndexTs.

Module Part000.

(** [DIRECTIONS] of the second entry file, read as
    [DIRECTIONS[event.keyCode]]: the key is a number, and no property of
    [Object.prototype] has a number for its name. *)
Definition DIRECTIONS (c : Z) : option Direction :=
  if c =? 37 then Some (mkDirection 0 (-1) 0)
  else if c =? 39 then Some (mkDirection 1 1 0)
  else if c =? 38 then Some (mkDirection 2 0 (-1))
  else if c =? 40 then Some (mkDirection 3 0 1)
  else None.

(** [direction$] listens to [keydown$] only. *)
Definition toDirection (e : Event) : option Direction :=
  match e with
  | KeyDown k => DIRECTIONS (keyCode k)
  | _ => None
  end.

(** [./keys.util] is imported; its table [keyToCode] is an argument.
    [INITIAL_DIRECTION = DIRECTIONS[KeyUtil.keyToCode('down_arrow')]] *)
Definition INITIAL_DIRECTION (keyToCode : string -> Z) : option Direction :=
  DIRECTIONS (keyToCode "down_arrow"%string).

(** [event.keyCode === KeyUtil.keyToCode("spacebar")] *)
Definition isPauseKey (keyToCode : string -> Z) (e : Event) : bool :=
  match e with
  | KeyDown k => keyCode k =? keyToCode "spacebar"%string
  | _ => false
  end.

End Part000.

(** ** [./game.util]

    The module is imported by both entry files and its text is not part of
    them; its functions are written here from the specification of the
    rules engine. *)
Module GameUtil.

(** [r] is the exact opposite of [p]. *)
Definition opposite (p r : Point2D) : bool :=
  (x r =? - x p) && (y r =? - y p).

(** Modelled from the spec: [nextDirection] of [./game.util] is missing;
    it "rejects [requested] if it is the exact opposite of [previous]
    (a 180 degree reversal), else returns [requested]". *)
Definition nextDirection (previous requested : Direction) : Direction :=
  if opposite (val previous) (val requested) then previous else requested.

(** Modelled from the spec: [move] of [./game.util] is missing; "if paused,
    returns snake unchanged.  Otherwise computes new head = current head +
    direction; prepends new head; truncates the tail so the resulting length
    equals [targetLength]". *)
Definition move (snake : Snake) (args : Direction * Z * bool) : Snake :=
  let '(direction, snakeLength, pause) := args in
  if pause then snake
  else
    match snake with
    | [] => snake
    | head :: _ =>
        let nx := x head + x (val direction) in
        let ny := y head + y (val direction) in
        firstn (Z.to_nat snakeLength) ({| x := nx; y := ny |} :: snake)
    end.

(** Modelled from the spec: [nextDirection] and [move] receive whatever
    [direction$] carries, and the spec describes them for directions only.
    On directions they are the two functions above and keep the identity of
    the values.  A value without [x] and [y] is the exact opposite of
    nothing, so [nextDirection] answers with the requested value; the spec
    gives [move] no meaning along such a value, and the snake is left as it
    is. *)
Definition nextHeading (previous requested : Heading) : Heading :=
  match val previous, val requested with
  | Some p, Some r => if opposite p r then previous else requested
  | _, _ => requested
  end.

Definition moveHeading (snake : Snake) (args : Heading * Z * bool) : Snake :=
  let '(h, snakeLength, pause) := args in
  match val h with
  | Some v => move snake ({| addr := addr h; val := v |}, snakeLength, pause)
  | None => snake
  end.

(** Modelled from the spec: [incrementSnakeSpeed] of [./game.util] and the
    two constants it reads are missing; it "decreases the tick interval by a
    fixed step, floored at a minimum interval". *)
Definition incrementSnakeSpeed (SPEED_STEP MIN_SPEED : Z) (v : Z) : Z :=
  Z.max MIN_SPEED (v - SPEED_STEP).

(** [p] lies inside the grid. *)
Definition in_grid (COLS ROWS : Z) (p : Point2D) : bool :=
  (0 <=? x p) && (x p <? COLS) && (0 <=? y p) && (y p <? ROWS).

(** Modelled from the spec: [isGameOver] of [./game.util] and the grid size
    are missing; "true if the snake's head coincides with any other snake
    cell, or lies outside the configured grid bounds". *)
Definition isGameOver (COLS ROWS : Z) (scene : Scene) : bool :=
  match snake scene with
  | [] => false
  | head :: body =>
      existsb (point_eqb head) body || negb (in_grid COLS ROWS head)
  end.

(** Removes the first cell equal to [c]. *)
Fixpoint remove_cell (c : Point2D) (cells : list Point2D) : list Point2D :=
  match cells with
  | [] => []
  | d :: rest => if point_eqb c d then rest else d :: remove_cell c rest
  end.

Section Eat.

(** The generator of replacement cells, given the occupied cells. *)
Variable Rng : Type.
Variable pick : Rng -> list Point2D -> Point2D * Rng.

(** Modelled from the spec: [eat] of [./game.util] is missing; "if the
    snake's head coincides with a food cell, removes that cell and generates
    one replacement cell not currently occupied by the snake or any remaining
    food; otherwise returns the set unchanged (by reference/value equality,
    to support change detection downstream)".  The result of a consumption
    is a new array, hence another identity than the one it was made from. *)
Definition eat (g : Rng) (food : Apples) (snake : Snake) : Apples * Rng :=
  match snake with
  | [] => (food, g)
  | head :: _ =>
      if existsb (point_eqb head) (val food) then
        let rest := remove_cell head (val food) in
        let '(c, g') := pick g (snake ++ rest) in
        ({| addr := S (addr food); val := rest ++ [c] |}, g')
      else (food, g)
  end.

End Eat.

(** The cells of the grid, row by row. *)
Definition grid (COLS ROWS : Z) : list Point2D :=
  flat_map (fun r => map (fun c => {| x := Z.of_nat c; y := Z.of_nat r |})
                         (seq 0 (Z.to_nat COLS)))
           (seq 0 (Z.to_nat ROWS)).

Definition free (occupied : list Point2D) (p : Point2D) : bool :=
  negb (existsb (point_eqb p) occupied).

(** Modelled from the spec: the generator behind [eat] is missing with
    [./game.util]; [eat] "generates one replacement cell not currently
    occupied by the snake or any remaining food".  The random number [g]
    says where in the grid the search for a cell that is not occupied
    starts; the search goes once around the grid.  When every cell of the
    grid is occupied there is no such cell, and the spec does not say what
    happens: the answer is then the cell (0, 0). *)
Definition replacement (COLS ROWS : Z) (g : Z) (occupied : list Point2D)
  : Point2D * Z :=
  let cells := grid COLS ROWS in
  let start := Z.to_nat (g mod Z.of_nat (List.length cells)) in
  (match find (free occupied) (skipn start cells ++ firstn start cells) with
   | Some c => c
   | None => {| x := 0; y := 0 |}
   end, g + 1).

End GameUtil.

(** ** Reading the trace *)

(** The observations selected by [f], newest first. *)
Fixpoint collect {A} (f : Obs -> option A) (tr : list Obs) : list A :=
  match tr with
  | [] => []
  | o :: tr' =>
      match f o with
      | Some a => a :: collect f tr'
      | None => collect f tr'
      end
  end.

Definition latest {A} (f : Obs -> option A) (tr : list Obs) : option A :=
  hd_error (collect f tr).

Definition as_speed (o : Obs) : option Z :=
  match o with OSpeed v => Some v | _ => None end.
Definition as_tick (o : Obs) : option Z :=
  match o with OTick t => Some t | _ => None end.
Definition as_direction (o : Obs) : option Heading :=
  match o with ODirection d => Some d | _ => None end.
Definition as_length (o : Obs) : option Z :=
  match o with OLength l => Some l | _ => None end.
Definition as_score (o : Obs) : option Z :=
  match o with OScore z => Some z | _ => None end.
Definition as_snake (o : Obs) : option Snake :=
  match o with OSnake s => Some s | _ => None end.
Definition as_apples (o : Obs) : option Apples :=
  match o with OApples a => Some a | _ => None end.
Definition as_scene (o : Obs) : option Scene :=
  match o with OScene s => Some s | _ => None end.
(** Calls of the rendering collaborator. *)
Definition as_call (o : Obs) : option Obs :=
  match o with
  | ORenderScene _ | ORenderGameOver => Some o
  | _ => None
  end.

(** [appleEaten$] is [apples$] after [skip(1)]: the consumptions it detects
    are the emissions of [apples$] after the first. *)
Definition detected (tr : list Obs) : nat :=
  Nat.pred (List.length (collect as_apples tr)).

(** Every observation is related by [R] to the one before it (the list is
    newest first). *)
Fixpoint chain {A} (R : A -> A -> Prop) (l : list A) : Prop :=
  match l with
  | a :: (b :: _) as older => R a b /\ chain R older
  | _ => True
  end.

(** The calls of the rendering collaborator, in the order they were made. *)
Definition calls (tr : list Obs) : list Obs := rev (collect as_call tr).

(** Every scene in the trace is made of values that the three streams
    emitted before it. *)
Fixpoint grounded (tr : list Obs) : Prop :=
  match tr with
  | [] => True
  | o :: before =>
      match o with
      | OScene sc =>
          In (snake sc) (collect as_snake before) /\
          In (apples sc) (collect as_apples before) /\
          In (score sc) (collect as_score before)
      | _ => True
      end /\ grounded before
  end.

(** The scene is the composite of the latest value of each stream. *)
Definition composite (tr : list Obs) (sc : Scene) : Prop :=
  latest as_snake tr = Some (snake sc) /\
  latest as_apples tr = Some (apples sc) /\
  latest as_score tr = Some (score sc).

(** Every scene in the trace is the composite of the latest value of each
    stream at the moment it is emitted. *)
Definition every_scene_composite (tr : list Obs) : Prop :=
  forall n sc,
    nth_error tr n = Some (OScene sc) -> composite (skipn (S n) tr) sc.

Definition as_pause (o : Obs) : option bool :=
  match o with OPause p => Some p | _ => None end.

(** One of the four unit vectors of the tables. *)
Definition unit_vector (p : Point2D) : Prop :=
  In p [ {| x := -1; y := 0 |}; {| x := 1; y := 0 |};
         {| x := 0; y := -1 |}; {| x := 0; y := 1 |} ].

(** The value has coordinates, and they are a unit vector. *)
Definition is_unit (h : Heading) : Prop :=
  match val h with
  | Some p => unit_vector p
  | None => False
  end.

(** ** What the entry file imports

    [./constants] and [./game.util] are imported by the source and kept
    abstract in the pipeline; the input tables differ between the two entry
    files and are abstract as well.  [eat] draws from [Math.random], whose
    state is threaded through it. *)
Class Imports : Type := {
  (* ./constants *)
  SNAKE_LENGTH : Z;
  POINTS_PER_APPLE : Z;
  (* ./game.util *)
  Rng : Type;
  seed : Rng;
  generateSnake : Snake;
  generateApples : Apples;
  move : Snake -> Heading * Z * bool -> Snake;
  eat : Rng -> Apples -> Snake -> Apples * Rng;
  incrementSnakeSpeed : Z -> Z;
  isGameOver : Scene -> bool;
  nextDirection : Heading -> Heading -> Heading;
  (* the tables: [map] to what the table answers followed by
     [filter(direction => !!direction)], the pause key test, and the value
     looked up for [INITIAL_DIRECTION] *)
  toDirection : Event -> option Heading;
  isPauseKey : Event -> bool;
  INITIAL_DIRECTION : Heading
}.

(** ** The pipeline *)
Section Pipeline.

Context {imports : Imports}.

Record State : Type := mkState {
  PAUSE : bool;                      (* let PAUSE *)
  SPEED : Z;                         (* let SPEED *)
  now : Z;                           (* the clock, in milliseconds *)
  next_tid : nat;                    (* next timer handle *)
  timers : list Timer;               (* running interval timers *)
  switch_inner : option nat;         (* ticks$: the inner subscription of switchMap *)
  pause_last : option bool;          (* pause$: distinctUntilChanged *)
  direction_acc : option Heading;    (* direction$: scan(nextDirection) *)
  direction_last : option Heading;   (* direction$: distinctUntilChanged *)
  snakeLength_acc : option Z;        (* snakeLength$: scan *)
  score_acc : option Z;              (* score$: scan *)
  wl_direction : option Heading;     (* snake$: withLatestFrom, latest of direction$ *)
  wl_snakeLength : option Z;         (* snake$: withLatestFrom, latest of snakeLength$ *)
  wl_pause : option bool;            (* snake$: withLatestFrom, latest of pause$ *)
  snake_acc : Snake;                 (* snake$: scan(move, generateSnake()) *)
  apples_acc : Apples;               (* apples$: scan(eat, generateApples()) *)
  apples_last : option Apples;       (* apples$: distinctUntilChanged *)
  skipped : nat;                     (* appleEaten$: values dropped by skip(1) so far *)
  rng : Rng;                         (* state of Math.random *)
  cl_snake : option Snake;           (* scene$: combineLatest, latest of snake$ *)
  cl_apples : option Apples;         (* scene$: combineLatest, latest of apples$ *)
  cl_score : option Z;               (* scene$: combineLatest, latest of score$ *)
  game_scene : option Scene;         (* game$: withLatestFrom, latest of scene$ *)
  game : Lifecycle;                  (* game$: the subscription *)
  trace : list Obs                   (* observations, newest first *)
}.

Definition set_PAUSE (v : bool) (s : State) : State :=
  mkState v (SPEED s) (now s) (next_tid s) (timers s) (switch_inner s)
    (pause_last s) (direction_acc s) (direction_last s) (snakeLength_acc s)
    (score_acc s) (wl_direction s) (wl_snakeLength s) (wl_pause s)
    (snake_acc s) (apples_acc s) (apples_last s) (skipped s) (rng s)
    (cl_snake s) (cl_apples s) (cl_score s) (game_scene s) (game s)
    (trace s).
Definition set_SPEED (v : Z) (s : State) : State :=
  mkState (PAUSE s) v (now s) (next_tid s) (timers s) (switch_inner s)
    (pause_last s) (direction_acc s) (direction_last s) (snakeLength_acc s)
    (score_acc s) (wl_direction s) (wl_snakeLength s) (wl_pause s)
    (snake_acc s) (apples_acc s) (apples_last s) (skipped s) (rng s)
    (cl_snake s) (cl_apples s) (cl_score s) (game_scene s) (game s)
    (trace s).
Definition set_now (v : Z) (s : State) : State :=
  mkState (PAUSE s) (SPEED s) v (next_tid s) (timers s) (switch_inner s)
    (pause_last s) (direction_acc s) (direction_last s) (snakeLength_acc s)
    (score_acc s) (wl_direction s) (wl_snakeLength s) (wl_pause s)
    (snake_acc s) (apples_acc s) (apples_last s) (skipped s) (rng s)
    (cl_snake s) (cl_apples s) (cl_score s) (game_scene s) (game s)
    (trace s).
Definition set_next_tid (v : nat) (s : State) : State :=
  mkState (PAUSE s) (SPEED s) (now s) v (timers s) (switch_inner s)
    (pause_last s) (direction_acc s) (direction_last s) (snakeLength_acc s)
    (score_acc s) (wl_direction s) (wl_snakeLength s) (wl_pause s)
    (snake_acc s) (apples_acc s) (apples_last s) (skipped s) (rng s)
    (cl_snake s) (cl_apples s) (cl_score s) (game_scene s) (game s)
    (trace s).
Definition set_timers (v : list Timer) (s : State) : State :=
  mkState (PAUSE s) (SPEED s) (now s) (next_tid s) v (switch_inner s)
    (pause_last s) (direction_acc s) (direction_last s) (snakeLength_acc s)
    (score_acc s) (wl_direction s) (wl_snakeLength s) (wl_pause s)
    (snake_acc s) (apples_acc s) (apples_last s) (skipped s) (rng s)
    (cl_snake s) (cl_apples s) (cl_score s) (game_scene s) (game s)
    (trace s).
Definition set_switch_inner (v : option nat) (s : State) : State :=
  mkState (PAUSE s) (SPEED s) (now s) (next_tid s) (timers s) v
    (pause_last s) (direction_acc s) (direction_last s) (snakeLength_acc s)
    (score_acc s) (wl_direction s) (wl_snakeLength s) (wl_pause s)
    (snake_acc s) (apples_acc s) (apples_last s) (skipped s) (rng s)
    (cl_snake s) (cl_apples s) (cl_score s) (game_scene s) (game s)
    (trace s).
Definition set_pause_last (v : option bool) (s : State) : State :=
  mkState (PAUSE s) (SPEED s) (now s) (next_tid s) (timers s)
    (switch_inner s) v (direction_acc s) (direction_last s)
    (snakeLength_acc s) (score_acc s) (wl_direction s) (wl_snakeLength s)
    (wl_pause s) (snake_acc s) (apples_acc s) (apples_last s) (skipped s)
    (rng s) (cl_snake s) (cl_apples s) (cl_score s) (game_scene s) (game s)
    (trace s).
Definition set_direction_acc (v : option Heading) (s : State) : State :=
  mkState (PAUSE s) (SPEED s) (now s) (next_tid s) (timers s)
    (switch_inner s) (pause_last s) v (direction_last s) (snakeLength_acc s)
    (score_acc s) (wl_direction s) (wl_snakeLength s) (wl_pause s)
    (snake_acc s) (apples_acc s) (apples_last s) (skipped s) (rng s)
    (cl_snake s) (cl_apples s) (cl_score s) (game_scene s) (game s)
    (trace s).
Definition set_direction_last (v : option Heading) (s : State) : State :=
  mkState (PAUSE s) (SPEED s) (now s) (next_tid s) (timers s)
    (switch_inner s) (pause_last s) (direction_acc s) v (snakeLength_acc s)
    (score_acc s) (wl_direction s) (wl_snakeLength s) (wl_pause s)
    (snake_acc s) (apples_acc s) (apples_last s) (skipped s) (rng s)
    (cl_snake s) (cl_apples s) (cl_score s) (game_scene s) (game s)
    (trace s).
Definition set_snakeLength_acc (v : option Z) (s : State) : State :=
  mkState (PAUSE s) (SPEED s) (now s) (next_tid s) (timers s)
    (switch_inner s) (pause_last s) (direction_acc s) (direction_last s) v
    (score_acc s) (wl_direction s) (wl_snakeLength s) (wl_pause s)
    (snake_acc s) (apples_acc s) (apples_last s) (skipped s) (rng s)
    (cl_snake s) (cl_apples s) (cl_score s) (game_scene s) (game s)
    (trace s).
Definition set_score_acc (v : option Z) (s : State) : State :=
  mkState (PAUSE s) (SPEED s) (now s) (next_tid s) (timers s)
    (switch_inner s) (pause_last s) (direction_acc s) (direction_last s)
    (snakeLength_acc s) v (wl_direction s) (wl_snakeLength s) (wl_pause s)
    (snake_acc s) (apples_acc s) (apples_last s) (skipped s) (rng s)
    (cl_snake s) (cl_apples s) (cl_score s) (game_scene s) (game s)
    (trace s).
Definition set_wl_direction (v : option Heading) (s : State) : State :=
  mkState (PAUSE s) (SPEED s) (now s) (next_tid s) (timers s)
    (switch_inner s) (pause_last s) (direction_acc s) (direction_last s)
    (snakeLength_acc s) (score_acc s) v (wl_snakeLength s) (wl_pause s)
    (snake_acc s) (apples_acc s) (apples_last s) (skipped s) (rng s)
    (cl_snake s) (cl_apples s) (cl_score s) (game_scene s) (game s)
    (trace s).
Definition set_wl_snakeLength (v : option Z) (s : State) : State :=
  mkState (PAUSE s) (SPEED s) (now s) (next_tid s) (timers s)
    (switch_inner s) (pause_last s) (direction_acc s) (direction_last s)
    (snakeLength_acc s) (score_acc s) (wl_direction s) v (wl_pause s)
    (snake_acc s) (apples_acc s) (apples_last s) (skipped s) (rng s)
    (cl_snake s) (cl_apples s) (cl_score s) (game_scene s) (game s)
    (trace s).
Definition set_wl_pause (v : option bool) (s : State) : State :=
  mkState (PAUSE s) (SPEED s) (now s) (next_tid s) (timers s)
    (switch_inner s) (pause_last s) (direction_acc s) (direction_last s)
    (snakeLength_acc s) (score_acc s) (wl_direction s) (wl_snakeLength s) v
    (snake_acc s) (apples_acc s) (apples_last s) (skipped s) (rng s)
    (cl_snake s) (cl_apples s) (cl_score s) (game_scene s) (game s)
    (trace s).
Definition set_snake_acc (v : Snake) (s : State) : State :=
  mkState (PAUSE s) (SPEED s) (now s) (next_tid s) (timers s)
    (switch_inner s) (pause_last s) (direction_acc s) (direction_last s)
    (snakeLength_acc s) (score_acc s) (wl_direction s) (wl_snakeLength s)
    (wl_pause s) v (apples_acc s) (apples_last s) (skipped s) (rng s)
    (cl_snake s) (cl_apples s) (cl_score s) (game_scene s) (game s)
    (trace s).
Definition set_apples_acc (v : Apples) (s : State) : State :=
  mkState (PAUSE s) (SPEED s) (now s) (next_tid s) (timers s)
    (switch_inner s) (pause_last s) (direction_acc s) (direction_last s)
    (snakeLength_acc s) (score_acc s) (wl_direction s) (wl_snakeLength s)
    (wl_pause s) (snake_acc s) v (apples_last s) (skipped s) (rng s)
    (cl_snake s) (cl_apples s) (cl_score s) (game_scene s) (game s)
    (trace s).
Definition set_apples_last (v : option Apples) (s : State) : State :=
  mkState (PAUSE s) (SPEED s) (now s) (next_tid s) (timers s)
    (switch_inner s) (pause_last s) (direction_acc s) (direction_last s)
    (snakeLength_acc s) (score_acc s) (wl_direction s) (wl_snakeLength s)
    (wl_pause s) (snake_acc s) (apples_acc s) v (skipped s) (rng s)
    (cl_snake s) (cl_apples s) (cl_score s) (game_scene s) (game s)
    (trace s).
Definition set_skipped (v : nat) (s : State) : State :=
  mkState (PAUSE s) (SPEED s) (now s) (next_tid s) (timers s)
    (switch_inner s) (pause_last s) (direction_acc s) (direction_last s)
    (snakeLength_acc s) (score_acc s) (wl_direction s) (wl_snakeLength s)
    (wl_pause s) (snake_acc s) (apples_acc s) (apples_last s) v (rng s)
    (cl_snake s) (cl_apples s) (cl_score s) (game_scene s) (game s)
    (trace s).
Definition set_rng (v : Rng) (s : State) : State :=
  mkState (PAUSE s) (SPEED s) (now s) (next_tid s) (timers s)
    (switch_inner s) (pause_last s) (direction_acc s) (direction_last s)
    (snakeLength_acc s) (score_acc s) (wl_direction s) (wl_snakeLength s)
    (wl_pause s) (snake_acc s) (apples_acc s) (apples_last s) (skipped s) v
    (cl_snake s) (cl_apples s) (cl_score s) (game_scene s) (game s)
    (trace s).
Definition set_cl_snake (v : option Snake) (s : State) : State :=
  mkState (PAUSE s) (SPEED s) (now s) (next_tid s) (timers s)
    (switch_inner s) (pause_last s) (direction_acc s) (direction_last s)
    (snakeLength_acc s) (score_acc s) (wl_direction s) (wl_snakeLength s)
    (wl_pause s) (snake_acc s) (apples_acc s) (apples_last s) (skipped s)
    (rng s) v (cl_apples s) (cl_score s) (game_scene s) (game s) (trace s).
Definition set_cl_apples (v : option Apples) (s : State) : State :=
  mkState (PAUSE s) (SPEED s) (now s) (next_tid s) (timers s)
    (switch_inner s) (pause_last s) (direction_acc s) (direction_last s)
    (snakeLength_acc s) (score_acc s) (wl_direction s) (wl_snakeLength s)
    (wl_pause s) (snake_acc s) (apples_acc s) (apples_last s) (skipped s)
    (rng s) (cl_snake s) v (cl_score s) (game_scene s) (game s) (trace s).
Definition set_cl_score (v : option Z) (s : State) : State :=
  mkState (PAUSE s) (SPEED s) (now s) (next_tid s) (timers s)
    (switch_inner s) (pause_last s) (direction_acc s) (direction_last s)
    (snakeLength_acc s) (score_acc s) (wl_direction s) (wl_snakeLength s)
    (wl_pause s) (snake_acc s) (apples_acc s) (apples_last s) (skipped s)
    (rng s) (cl_snake s) (cl_apples s) v (game_scene s) (game s) (trace s).
Definition set_game_scene (v : option Scene) (s : State) : State :=
  mkState (PAUSE s) (SPEED s) (now s) (next_tid s) (timers s)
    (switch_inner s) (pause_last s) (direction_acc s) (direction_last s)
    (snakeLength_acc s) (score_acc s) (wl_direction s) (wl_snakeLength s)
    (wl_pause s) (snake_acc s) (apples_acc s) (apples_last s) (skipped s)
    (rng s) (cl_snake s) (cl_apples s) (cl_score s) v (game s) (trace s).
Definition set_game (v : Lifecycle) (s : State) : State :=
  mkState (PAUSE s) (SPEED s) (now s) (next_tid s) (timers s)
    (switch_inner s) (pause_last s) (direction_acc s) (direction_last s)
    (snakeLength_acc s) (score_acc s) (wl_direction s) (wl_snakeLength s)
    (wl_pause s) (snake_acc s) (apples_acc s) (apples_last s) (skipped s)
    (rng s) (cl_snake s) (cl_apples s) (cl_score s) (game_scene s) v
    (trace s).
Definition set_trace (v : list Obs) (s : State) : State :=
  mkState (PAUSE s) (SPEED s) (now s) (next_tid s) (timers s)
    (switch_inner s) (pause_last s) (direction_acc s) (direction_last s)
    (snakeLength_acc s) (score_acc s) (wl_direction s) (wl_snakeLength s)
    (wl_pause s) (snake_acc s) (apples_acc s) (apples_last s) (skipped s)
    (rng s) (cl_snake s) (cl_apples s) (cl_score s) (game_scene s) (game s)
    v.

Definition log (o : Obs) (s : State) : State := set_trace (o :: trace s) s.

(** *** [scene$] and [score$]

    [scene$ = combineLatest(snake$, apples$, score$)] has one subscriber, the
    [withLatestFrom] of [game$]; it lives as long as [game$] does. *)
Definition scene_emit (s : State) : State :=
  match cl_snake s, cl_apples s, cl_score s with
  | Some sn, Some ap, Some sc =>
      let scene := {| snake := sn; apples := ap; score := sc |} in
      set_game_scene (Some scene) (log (OScene scene) s)
  | _, _, _ => s
  end.

Definition scene_snake (sn : Snake) (s : State) : State :=
  if live (game s) then scene_emit (set_cl_snake (Some sn) s) else s.

Definition scene_apples (ap : Apples) (s : State) : State :=
  if live (game s) then scene_emit (set_cl_apples (Some ap) s) else s.

Definition scene_score (sc : Z) (s : State) : State :=
  if live (game s) then scene_emit (set_cl_score (Some sc) s) else s.

(** [score$ = snakeLength$.pipe(startWith(0), scan((score, _) => score + POINTS_PER_APPLE))] *)
Definition score_next (v : Z) (s : State) : State :=
  if live (game s) then
    let sc := scan (fun score _ => score + POINTS_PER_APPLE) (score_acc s) v in
    scene_score sc (log (OScore sc) (set_score_acc (Some sc) s))
  else s.

(** *** [length$] and [snakeLength$]

    [snakeLength$ = length$.pipe(scan((step, snakeLength) => snakeLength + step), share())].
    [share()] hands each value to its subscribers in the order they
    subscribed: the [withLatestFrom] of [snake$] first, [score$] second. *)
Definition snakeLength_next (v : Z) (s : State) : State :=
  let len := scan (fun step snakeLength => snakeLength + step) (snakeLength_acc s) v in
  let s := log (OLength len) (set_snakeLength_acc (Some len) s) in
  let s := set_wl_snakeLength (Some len) s in
  score_next len s.

(** *** [ticks$ = speedSubject.pipe(switchMap(v => interval(v)))] *)
Definition clearInterval (id : nat) (s : State) : State :=
  set_timers (filter (fun t => negb (Nat.eqb (tid t) id)) (timers s)) s.

Definition setInterval (p : Z) (s : State) : State :=
  let t := {| tid := next_tid s; period := p; due := now s + delay p |} in
  set_next_tid (S (next_tid s)) (set_timers (timers s ++ [t]) s).

(** [switchMap]: unsubscribe from the running inner stream, then subscribe to
    the one projected from the new value. *)
Definition unsubscribe_inner (s : State) : State :=
  match switch_inner s with
  | Some id => clearInterval id s
  | None => s
  end.

Definition speedSubject_next (v : Z) (s : State) : State :=
  let s := unsubscribe_inner (log (OSpeed v) s) in
  set_switch_inner (Some (next_tid s)) (setInterval v s).

(** *** [appleEaten$ = apples$.pipe(skip(1), tap(...)).subscribe()] *)
Definition appleEaten_tap (s : State) : State :=
  let s := set_SPEED (incrementSnakeSpeed (SPEED s)) s in
  let s := speedSubject_next (SPEED s) s in
  snakeLength_next POINTS_PER_APPLE s.

Definition appleEaten_next (s : State) : State :=
  if Nat.ltb (skipped s) 1 then set_skipped (S (skipped s)) s
  else appleEaten_tap s.

(** *** [apples$ = snake$.pipe(scan(eat, generateApples()), distinctUntilChanged(), share())]

    Subscribers of the shared stream, in order: [appleEaten$], [scene$]. *)
Definition apples_next (sn : Snake) (s : State) : State :=
  let '(ap, g) := eat (rng s) (apples_acc s) sn in
  let s := set_rng g (set_apples_acc ap s) in
  if distinctUntilChanged same (apples_last s) ap then
    let s := log (OApples ap) (set_apples_last (Some ap) s) in
    scene_apples ap (appleEaten_next s)
  else s.

(** *** [snake$ = ticks$.pipe(withLatestFrom(direction$, snakeLength$, pause$, ...), scan(move, generateSnake()), share())]

    Subscribers of the shared stream, in order: [apples$], [scene$]. *)
Definition snake_next (s : State) : State :=
  match wl_direction s, wl_snakeLength s, wl_pause s with
  | Some direction, Some snakeLength, Some pause =>
      let sn := move (snake_acc s) (direction, snakeLength, pause) in
      let s := log (OSnake sn) (set_snake_acc sn s) in
      scene_snake sn (apples_next sn s)
  | _, _, _ => s
  end.

Definition ticks_next (s : State) : State :=
  snake_next (log (OTick (now s)) s).

(** *** The timers of [interval(v)] *)
Definition reschedule (id : nat) (s : State) : State :=
  set_timers
    (map (fun t => if Nat.eqb (tid t) id
                   then {| tid := tid t; period := period t;
                           due := due t + delay (period t) |}
                   else t) (timers s)) s.

(** The callback of timer [id]; a timer cleared by an earlier callback of the
    same millisecond does not fire. *)
Definition fire (id : nat) (s : State) : State :=
  match find (fun t => Nat.eqb (tid t) id) (timers s) with
  | Some t => if due t <=? now s then ticks_next (reschedule id s) else s
  | None => s
  end.

Definition elapse (s : State) : State :=
  let s := set_now (now s + 1) s in
  fold_left (fun s id => fire id s) (map tid (timers s)) s.

(** *** [direction$]: [scan(nextDirection), startWith(INITIAL_DIRECTION), distinctUntilChanged()] *)
Definition direction_emit (d : Heading) (s : State) : State :=
  if distinctUntilChanged same (direction_last s) d then
    set_wl_direction (Some d) (log (ODirection d) (set_direction_last (Some d) s))
  else s.

Definition direction_next (d : Heading) (s : State) : State :=
  let r := scan nextDirection (direction_acc s) d in
  direction_emit r (set_direction_acc (Some r) s).

(** *** [pause$]: [map(() => { PAUSE = !PAUSE; return PAUSE; }), startWith(PAUSE), distinctUntilChanged()] *)
Definition pause_emit (p : bool) (s : State) : State :=
  if distinctUntilChanged Bool.eqb (pause_last s) p then
    set_wl_pause (Some p) (log (OPause p) (set_pause_last (Some p) s))
  else s.

Definition pause_next (s : State) : State :=
  let s := set_PAUSE (negb (PAUSE s)) s in
  pause_emit (PAUSE s) s.

(** *** [game$]: [withLatestFrom(scene$, (_, scene) => scene), takeWhile(scene => !isGameOver(scene))]

    subscribed with [{next: renderScene, complete: renderGameOver}]. *)
Definition game_next (s : State) : State :=
  if live (game s) then
    match game_scene s with
    | None => s
    | Some scene =>
        if negb (isGameOver scene) then log (ORenderScene scene) s
        else log ORenderGameOver (set_game Completed s)
    end
  else s.

(** *** Loading the module

    Nothing runs until [appleEaten$] is subscribed (line 151): that subscribes
    [apples$], [snake$], and through [withLatestFrom] first [direction$],
    [snakeLength$] and [pause$], then [ticks$].  [length$] and [speedSubject]
    are [BehaviorSubject]s and replay their value to the new subscriber. *)
Definition blank : State := {|
  PAUSE := false;
  SPEED := 150;
  now := 0;
  next_tid := 0;
  timers := [];
  switch_inner := None;
  pause_last := None;
  direction_acc := None;
  direction_last := None;
  snakeLength_acc := None;
  score_acc := None;
  wl_direction := None;
  wl_snakeLength := None;
  wl_pause := None;
  snake_acc := generateSnake;
  apples_acc := generateApples;
  apples_last := None;
  skipped := 0;
  rng := seed;
  cl_snake := None;
  cl_apples := None;
  cl_score := None;
  game_scene := None;
  game := Unsubscribed;
  trace := []
|}.

Definition appleEaten_subscribe (s : State) : State :=
  let s := direction_emit INITIAL_DIRECTION s in
  let s := snakeLength_next SNAKE_LENGTH s in
  let s := pause_emit (PAUSE s) s in
  speedSubject_next (SPEED s) s.

(** [game$] is subscribed last (line 170): [combineLatest] subscribes
    [snake$] and [apples$], already running, then [score$], whose
    [startWith(0)] emits at once; [snakeLength$] is shared and already
    connected, so it replays nothing to [score$]. *)
Definition game_subscribe (s : State) : State :=
  score_next 0 (set_game Subscribed s).

Definition init : State := game_subscribe (appleEaten_subscribe blank).

(** *** One external event *)
Definition step (s : State) (e : Event) : State :=
  match e with
  | Elapse => elapse s
  | AnimationFrame => game_next s
  | KeyDown _ | Click _ =>
      let s := match toDirection e with
               | Some d => direction_next d s
               | None => s
               end in
      if isPauseKey e then pause_next s else s
  end.

Definition run (es : list Event) : State := fold_left step es init.

(** *** What the properties speak of *)

(** The directions that pass the [map] and [filter] of [direction$]. *)
Definition inputs (es : list Event) : list Heading :=
  flat_map (fun e => match e with
                     | KeyDown _ | Click _ =>
                         match toDirection e with
                         | Some d => [d]
                         | None => []
                         end
                     | _ => []
                     end) es.

(** The accumulator of [scan(nextDirection)] after these inputs. *)
Definition resolved (ds : list Heading) : option Heading :=
  fold_left (fun acc d => Some (scan nextDirection acc d)) ds None.

(** What one event feeds into [scan(nextDirection)]. *)
Definition input (e : Event) : option Heading :=
  match e with
  | KeyDown _ | Click _ => toDirection e
  | _ => None
  end.

(** The call and the state of the loop after an animation frame. *)
Definition sample (s : State) : option Scene :=
  if live (game s) then latest as_scene (trace s) else None.

Definition frame_calls (s : State) : list Obs :=
  match sample s with
  | Some sc => if isGameOver sc then [ORenderGameOver] else [ORenderScene sc]
  | None => []
  end.

Definition frame_game (s : State) : Lifecycle :=
  match sample s with
  | Some sc => if isGameOver sc then Completed else game s
  | None => game s
  end.

(** What a transition does to the tick source.  It delivers at most one
    tick, and after a tick the running timer is due one full period later.
    When a new interval reached [switchMap], the only running timer is a new
    one, started now with that interval. *)
Definition switched (s s' : State) : Prop :=
  (collect as_tick (trace s') = collect as_tick (trace s) \/
   exists t',
     collect as_tick (trace s') = now s' :: collect as_tick (trace s) /\
     timers s' = [t'] /\ due t' = now s' + delay (period t')) /\
  (collect as_speed (trace s') = collect as_speed (trace s) \/
   exists v t',
     collect as_speed (trace s') = v :: collect as_speed (trace s) /\
     timers s' = [t'] /\ (next_tid s <= tid t')%nat /\
     period t' = v /\ due t' = now s' + delay v).

(** The timer of [interval(v)] fires in the millisecond that [e] lets
    pass. *)
Definition ticked (s : State) (e : Event) : bool :=
  match e, timers s with
  | Elapse, [t] => due t <=? now s + 1
  | _, _ => false
  end.

(** What a transition does to the tick source, told by what the rest of the
    program does.  A tick is delivered exactly when the timer is due.  When
    no consumption is detected, the interval and the timer stay, and the
    timer is due one period later if it fired.  When [appleEaten$] detects a
    consumption, which happens within a tick, [SPEED] becomes
    [incrementSnakeSpeed(SPEED)] and the only timer left is one that did not
    exist before, with the new interval for its period, first due one full
    new period after this tick. *)
Definition restarted (s s' : State) (e : Event) : Prop :=
  collect as_tick (trace s') =
    (if ticked s e then [now s + 1] else []) ++ collect as_tick (trace s) /\
  exists t t',
    timers s = [t] /\ timers s' = [t'] /\ switch_inner s' = Some (tid t') /\
    if (detected (trace s') =? detected (trace s))%nat then
      SPEED s' = SPEED s /\ tid t' = tid t /\ period t' = period t /\
      due t' = (if ticked s e then due t + delay (period t) else due t)
    else
      detected (trace s') = S (detected (trace s)) /\
      ticked s e = true /\
      SPEED s' = incrementSnakeSpeed (SPEED s) /\
      (tid t < next_tid s <= tid t')%nat /\
      period t' = SPEED s' /\
      due t' = now s + 1 + delay (SPEED s').

(** *** Invariants of the state machine *)

(** Counting the consumptions detected by [appleEaten$]. *)
Definition counting (s : State) : Prop :=
  skipped s = Nat.min 1 (List.length (collect as_apples (trace s))) /\
  snakeLength_acc s =
    Some (SNAKE_LENGTH + Z.of_nat (detected (trace s)) * POINTS_PER_APPLE) /\
  wl_snakeLength s = snakeLength_acc s /\
  latest as_length (trace s) = snakeLength_acc s /\
  (live (game s) = true ->
   score_acc s = Some (Z.of_nat (detected (trace s)) * POINTS_PER_APPLE) /\
   latest as_score (trace s) = score_acc s /\
   cl_score s = score_acc s).

(** The timer behind [ticks$]. *)
Definition ticking (s : State) : Prop :=
  exists t,
    timers s = [t] /\ switch_inner s = Some (tid t) /\
    (tid t < next_tid s)%nat /\ period t = SPEED s /\
    latest as_speed (trace s) = Some (SPEED s) /\
    now s < due t <= now s + delay (period t) /\
    Forall (fun u => u <= now s) (collect as_tick (trace s)) /\
    chain (fun newer older => older < newer) (collect as_tick (trace s)).

(** The render loop. *)
Definition rendering (s : State) : Prop :=
  game_scene s = latest as_scene (trace s) /\
  game s <> Unsubscribed /\
  (latest as_scene (trace s) = None ->
   collect as_call (trace s) = [] /\ game s = Subscribed) /\
  exists shown,
    collect as_call (trace s) =
      (if live (game s) then [] else [ORenderGameOver]) ++
      map ORenderScene shown /\
    Forall (fun sc => isGameOver sc = false) shown.

Definition unrendered (cs : list Obs) (g : Lifecycle) (s : State) : Prop :=
  collect as_call (trace s) = cs /\ game s = g.

(** The scene composer. *)
Definition composing (s : State) : Prop :=
  grounded (trace s) /\
  apples_last s = latest as_apples (trace s) /\
  (live (game s) = true ->
   cl_snake s = latest as_snake (trace s) /\
   cl_apples s = latest as_apples (trace s) /\
   cl_score s = latest as_score (trace s) /\
   cl_score s <> None /\
   match latest as_scene (trace s) with
   | None => cl_snake s = None /\ cl_apples s = None
   | Some sc =>
       cl_snake s = Some (snake sc) /\ cl_apples s = Some (apples sc) /\
       cl_score s = Some (score sc)
   end).

(** The tick intervals, above a floor. *)
Definition slowing (floor : Z) (s : State) : Prop :=
  latest as_speed (trace s) = Some (SPEED s) /\
  chain (fun newer older => newer <= older) (collect as_speed (trace s)) /\
  Forall (fun v => floor <= v) (collect as_speed (trace s)).

(** The direction fold. *)
Definition steering (acc : option Heading) (s : State) : Prop :=
  direction_acc s = acc /\
  wl_direction s = latest as_direction (trace s).

(** *** Further properties and invariants *)

(** The event reaches the [map] of [pause$] and passes its [filter]. *)
Definition pauses (e : Event) : bool :=
  match e with
  | KeyDown _ | Click _ => isPauseKey e
  | _ => false
  end.

Definition pause_presses (es : list Event) : nat :=
  List.length (filter pauses es).

(** [pause$]: the flag, what [distinctUntilChanged] and [withLatestFrom]
    hold, and the emissions. *)
Definition pausing (p : bool) (s : State) : Prop :=
  PAUSE s = p /\
  pause_last s = Some p /\
  wl_pause s = Some p /\
  latest as_pause (trace s) = Some p /\
  chain (fun newer older => newer = negb older) (collect as_pause (trace s)).

(** [direction$]: [distinctUntilChanged] compares with the last emission. *)
Definition deduping (s : State) : Prop :=
  direction_last s = latest as_direction (trace s) /\
  chain (fun newer older => same older newer = false)
        (collect as_direction (trace s)).

(** [appleEaten$]: what the [tap] has done after the detected
    consumptions. *)
Definition accelerating (s : State) : Prop :=
  skipped s = Nat.min 1 (List.length (collect as_apples (trace s))) /\
  SPEED s = Nat.iter (detected (trace s)) incrementSnakeSpeed 150 /\
  List.length (collect as_speed (trace s)) = S (detected (trace s)) /\
  List.length (collect as_length (trace s)) = S (detected (trace s)).

(** [snake$]: what [withLatestFrom] holds and what [scan(move)] holds. *)
Definition sampling (s : State) : Prop :=
  wl_direction s = latest as_direction (trace s) /\
  wl_snakeLength s = latest as_length (trace s) /\
  wl_pause s = latest as_pause (trace s) /\
  wl_direction s <> None /\ wl_snakeLength s <> None /\ wl_pause s <> None /\
  List.length (collect as_snake (trace s)) =
    List.length (collect as_tick (trace s)) /\
  snake_acc s = hd generateSnake (collect as_snake (trace s)).

(** What a transition does to [snake$]: nothing without a tick; on a tick,
    one [move] of the last snake with the latest direction, length and pause
    flag emitted before the tick. *)
Definition moved (s s' : State) : Prop :=
  (collect as_tick (trace s') = collect as_tick (trace s) /\
   collect as_snake (trace s') = collect as_snake (trace s)) \/
  (exists d l p,
     latest as_direction (trace s) = Some d /\
     latest as_length (trace s) = Some l /\
     latest as_pause (trace s) = Some p /\
     collect as_tick (trace s') = now s' :: collect as_tick (trace s) /\
     collect as_snake (trace s') =
       move (hd generateSnake (collect as_snake (trace s))) (d, l, p)
         :: collect as_snake (trace s)).

(** The part of the state and of the trace that belongs to the simulation
    driven by [ticks$]. *)
Definition simulation (s : State) :=
  (snake_acc s, apples_acc s, apples_last s, rng s, skipped s,
   (SPEED s, now s, timers s, switch_inner s, next_tid s),
   (snakeLength_acc s, wl_snakeLength s, score_acc s),
   (cl_snake s, cl_apples s, cl_score s, game_scene s)).

Definition simulated (tr : list Obs) :=
  (collect as_tick tr, collect as_snake tr, collect as_apples tr,
   collect as_speed tr, collect as_length tr, collect as_score tr,
   collect as_scene tr).

(** What [scene$], [score$] and the render loop hold and have emitted. *)
Definition displayed (s : State) :=
  (collect as_scene (trace s), collect as_score (trace s),
   collect as_call (trace s),
   (cl_snake s, cl_apples s, cl_score s, score_acc s, game_scene s, game s)).

(** [direction$]: the last emission is the fold of [nextDirection], up to
    identity. *)
Definition following (s : State) : Prop :=
  exists l,
    direction_last s = Some l /\
    wl_direction s = Some l /\
    latest as_direction (trace s) = Some l /\
    same l (match direction_acc s with
            | Some a => a
            | None => INITIAL_DIRECTION
            end) = true.

(** [direction$] holds and has emitted unit vectors only. *)
Definition unit_steering (s : State) : Prop :=
  match direction_acc s with
  | Some a => is_unit a
  | None => True
  end /\
  Forall is_unit (collect as_direction (trace s)).

(** What the streams below [scene$] hold and have emitted: everything but
    [score$], [scene$] and the render loop. *)
Definition world (s : State) :=
  (PAUSE s, SPEED s, now s, next_tid s, timers s, switch_inner s,
   (pause_last s, direction_acc s, direction_last s, snakeLength_acc s),
   (wl_direction s, wl_snakeLength s, wl_pause s),
   (snake_acc s, apples_acc s, apples_last s, skipped s, rng s)).

Definition streams (tr : list Obs) :=
  (collect as_tick tr, collect as_snake tr, collect as_apples tr,
   collect as_speed tr, collect as_length tr, collect as_direction tr,
   collect as_pause tr).

Definition alike (s1 s2 : State) : Prop :=
  world s1 = world s2 /\ streams (trace s1) = streams (trace s2).

Definition is_frame (e : Event) : bool :=
  match e with AnimationFrame => true | _ => false end.

(** [scene$]: one scene for each tick, two more for each detected
    consumption. *)
Definition glitching (s : State) : Prop :=
  let ticks := List.length (collect as_tick (trace s)) in
  let foods := List.length (collect as_apples (trace s)) in
  let scenes := List.length (collect as_scene (trace s)) in
  wl_direction s <> None /\ wl_snakeLength s <> None /\
  wl_pause s <> None /\
  skipped s = Nat.min 1 foods /\
  (foods = 0%nat -> apples_last s = None) /\
  (ticks = 0%nat -> foods = 0%nat) /\
  (scenes <= ticks + 2 * Nat.pred foods)%nat /\
  (live (game s) = true ->
   cl_score s <> None /\
   (ticks = 0%nat -> cl_snake s = None /\ scenes = 0%nat) /\
   (ticks <> 0%nat ->
    cl_snake s <> None /\ cl_apples s <> None /\ foods <> 0%nat /\
    scenes = (ticks + 2 * Nat.pred foods)%nat)).

(** [apples$]: [distinctUntilChanged] compares with the last emission. *)
Definition feeding (s : State) : Prop :=
  apples_last s = latest as_apples (trace s) /\
  chain (fun newer older => same older newer = false)
        (collect as_apples (trace s)) /\
  match latest as_apples (trace s) with
  | Some l => same l (apples_acc s) = true
  | None => apples_acc s = generateApples
  end.

(** What a transition makes [scene$] emit while the render loop is
    subscribed.  Without a tick, nothing.  A tick makes it emit the scene of
    the latest snake, food and score; and when [appleEaten$] detects a
    consumption in that tick, two scenes come before that one: first the new
    score with the food and the snake of the tick before, then the new score
    and the new food with the snake of the tick before. *)
Definition composed (s s' : State) : Prop :=
  let scenes := collect as_scene (trace s) in
  let scenes' := collect as_scene (trace s') in
  if live (game s) then
    if (List.length (collect as_tick (trace s')) =?
        List.length (collect as_tick (trace s)))%nat
    then scenes' = scenes
    else
      exists sn ap sc,
        latest as_snake (trace s') = Some sn /\
        latest as_apples (trace s') = Some ap /\
        latest as_score (trace s') = Some sc /\
        if (detected (trace s') =? detected (trace s))%nat then
          scenes' = {| snake := sn; apples := ap; score := sc |} :: scenes
        else
          exists sn0 ap0 sc0,
            latest as_snake (trace s) = Some sn0 /\
            latest as_apples (trace s) = Some ap0 /\
            latest as_score (trace s) = Some sc0 /\
            sc = sc0 + POINTS_PER_APPLE /\
            same ap0 ap = false /\
            scenes' =
              [ {| snake := sn; apples := ap; score := sc |};
                {| snake := sn0; apples := ap; score := sc |};
                {| snake := sn0; apples := ap0; score := sc |} ] ++ scenes
  else scenes' = scenes.

End Pipeline.

(** ** A concrete game

    The grid is 20 by 20, the snake starts with 5 cells on the top row, its
    head at (4, 0), moving down; an apple is worth one point; the interval
    shrinks by 10 ms down to 50 ms; the keys are those of [src/index.ts]. *)
Module Demo.

Definition P (a b : Z) : Point2D := {| x := a; y := b |}.

Definition snake0 : Snake := [P 4 0; P 3 0; P 2 0; P 1 0; P 0 0].

Definition food (cells : list Point2D) : Apples := {| addr := 0; val := cells |}.

(** The imports of a game started with the given apples. *)
Definition game (cells : list Point2D) : Imports := {|
  SNAKE_LENGTH := 5;
  POINTS_PER_APPLE := 1;
  Rng := Z;
  seed := 7;
  generateSnake := snake0;
  generateApples := food cells;
  move := GameUtil.moveHeading;
  eat := GameUtil.eat Z (GameUtil.replacement 20 20);
  incrementSnakeSpeed := GameUtil.incrementSnakeSpeed 10 50;
  isGameOver := GameUtil.isGameOver 20 20;
  nextDirection := GameUtil.nextHeading;
  toDirection := IndexTs.toDirection;
  isPauseKey := IndexTs.isPauseKey;
  INITIAL_DIRECTION := heading IndexTs.INITIAL_DIRECTION
|}.

Definition play (cells : list Point2D) (es : list Event) : @State (game cells) :=
  @run (game cells) es.

Definition ms (n : nat) : list Event := repeat Elapse n.

Definition keydown (k : string) : Event := KeyDown {| key := k; keyCode := 0 |}.

End Demo.

(** * Facts *)

(** ** Lists and cells *)

Lemma point_eqb_eq p q : point_eqb p q = true <-> p = q.
Proof.
  unfold point_eqb; destruct p as [a b], q as [c d]; cbn.
  rewrite andb_true_iff, !Z.eqb_eq.
  split; [intros [-> ->]; reflexivity | intros E; inversion E; auto].
Qed.

Lemma hd_error_In {A} (l : list A) (a : A) : hd_error l = Some a -> In a l.
Proof. destruct l; cbn; [discriminate | intros [= ->]; now left]. Qed.

(** ** Facts about every run *)
Section Facts.

Context {imports : Imports}.

Lemma run_snoc es e : run (es ++ [e]) = step (run es) e.
Proof. unfold run; rewrite fold_left_app; reflexivity. Qed.

Lemma run_app es es' : run (es ++ es') = fold_left step es' (run es).
Proof. unfold run; apply fold_left_app. Qed.

(** Induction over the events of a run. *)
Lemma run_ind (P : State -> Prop) :
  P init -> (forall s e, P s -> P (step s e)) -> forall es, P (run es).
Proof.
  intros H0 Hs es; induction es as [|e es IH] using rev_ind.
  - exact H0.
  - rewrite run_snoc; auto.
Qed.

Lemma fold_fire_inv (P : State -> Prop) :
  (forall id s, P s -> P (fire id s)) ->
  forall ids s, P s -> P (fold_left (fun s id => fire id s) ids s).
Proof. intros H ids; induction ids; cbn; auto. Qed.

(** Symbolic execution of one transition: states are kept in constructor
    form, the handler applied to such a state is unfolded, its conditions are
    split, and the updates are computed. *)
Ltac is_state S :=
  lazymatch S with
  | mkState _ _ _ _ _ _ _ _ _ _ _ _ _ _ _ _ _ _ _ _ _ _ _ _ _ => idtac
  end.

Ltac no_handler X :=
  lazymatch X with
  | context [step] => fail
  | context [elapse] => fail
  | context [fire] => fail
  | context [ticks_next] => fail
  | context [snake_next] => fail
  | context [apples_next] => fail
  | context [appleEaten_next] => fail
  | context [appleEaten_tap] => fail
  | context [speedSubject_next] => fail
  | context [unsubscribe_inner] => fail
  | context [snakeLength_next] => fail
  | context [score_next] => fail
  | context [scene_snake] => fail
  | context [scene_apples] => fail
  | context [scene_score] => fail
  | context [scene_emit] => fail
  | context [direction_next] => fail
  | context [direction_emit] => fail
  | context [pause_next] => fail
  | context [pause_emit] => fail
  | context [game_next] => fail
  | _ => idtac
  end.

Tactic Notation "updates" "in" hyp(H) :=
  cbn [set_PAUSE set_SPEED set_now set_next_tid set_timers set_switch_inner
       set_pause_last set_direction_acc set_direction_last
       set_snakeLength_acc set_score_acc set_wl_direction
       set_wl_snakeLength set_wl_pause set_snake_acc set_apples_acc
       set_apples_last set_skipped set_rng set_cl_snake set_cl_apples
       set_cl_score set_game_scene set_game set_trace
       PAUSE SPEED now next_tid timers switch_inner pause_last
       direction_acc direction_last snakeLength_acc score_acc wl_direction
       wl_snakeLength wl_pause snake_acc apples_acc apples_last skipped rng
       cl_snake cl_apples cl_score game_scene game trace
       log setInterval clearInterval reschedule scan distinctUntilChanged
       live fold_left map find filter app negb tid period due] in H.

Ltac updates :=
  cbn [set_PAUSE set_SPEED set_now set_next_tid set_timers set_switch_inner
       set_pause_last set_direction_acc set_direction_last
       set_snakeLength_acc set_score_acc set_wl_direction
       set_wl_snakeLength set_wl_pause set_snake_acc set_apples_acc
       set_apples_last set_skipped set_rng set_cl_snake set_cl_apples
       set_cl_score set_game_scene set_game set_trace
       PAUSE SPEED now next_tid timers switch_inner pause_last
       direction_acc direction_last snakeLength_acc score_acc wl_direction
       wl_snakeLength wl_pause snake_acc apples_acc apples_last skipped rng
       cl_snake cl_apples cl_score game_scene game trace
       log setInterval clearInterval reschedule scan distinctUntilChanged
       live fold_left map find filter app negb tid period due].

Ltac value_of S :=
  eval cbv beta iota zeta delta
       [set_PAUSE set_SPEED set_now set_next_tid set_timers
        set_switch_inner set_pause_last set_direction_acc
        set_direction_last set_snakeLength_acc set_score_acc
        set_wl_direction set_wl_snakeLength set_wl_pause set_snake_acc
        set_apples_acc set_apples_last set_skipped set_rng set_cl_snake
        set_cl_apples set_cl_score set_game_scene set_game set_trace
        PAUSE SPEED now next_tid timers switch_inner pause_last
        direction_acc direction_last snakeLength_acc score_acc wl_direction
        wl_snakeLength wl_pause snake_acc apples_acc apples_last skipped
        rng cl_snake cl_apples cl_score game_scene game trace
        log setInterval clearInterval reschedule] in S.

(** Unfolds handler [h] in [t], its application to the state [S]. *)
Ltac unfold_at h t S :=
  no_handler S;
  let S' := value_of S in
  is_state S';
  let t1 := (eval pattern S in t) in
  let t2 := lazymatch t1 with ?f _ => constr:(f S') end in
  let t' := eval cbv beta delta [h] in t2 in
  change t with t'.

Ltac enter :=
  match goal with
  | |- context [step ?S ?e] =>
      no_handler S;
      let S' := value_of S in
      is_state S';
      let t' := eval cbv beta delta [step] in (step S' e) in
      change (step S e) with t'
  | |- context [elapse ?S] => unfold_at elapse (elapse S) S
  | |- context [fire ?v ?S] => unfold_at fire (fire v S) S
  | |- context [ticks_next ?S] => unfold_at ticks_next (ticks_next S) S
  | |- context [snake_next ?S] => unfold_at snake_next (snake_next S) S
  | |- context [apples_next ?v ?S] =>
      unfold_at apples_next (apples_next v S) S
  | |- context [appleEaten_next ?S] =>
      unfold_at appleEaten_next (appleEaten_next S) S
  | |- context [appleEaten_tap ?S] =>
      unfold_at appleEaten_tap (appleEaten_tap S) S
  | |- context [speedSubject_next ?v ?S] =>
      unfold_at speedSubject_next (speedSubject_next v S) S
  | |- context [unsubscribe_inner ?S] =>
      unfold_at unsubscribe_inner (unsubscribe_inner S) S
  | |- context [snakeLength_next ?v ?S] =>
      unfold_at snakeLength_next (snakeLength_next v S) S
  | |- context [score_next ?v ?S] =>
      unfold_at score_next (score_next v S) S
  | |- context [scene_snake ?v ?S] =>
      unfold_at scene_snake (scene_snake v S) S
  | |- context [scene_apples ?v ?S] =>
      unfold_at scene_apples (scene_apples v S) S
  | |- context [scene_score ?v ?S] =>
      unfold_at scene_score (scene_score v S) S
  | |- context [scene_emit ?S] => unfold_at scene_emit (scene_emit S) S
  | |- context [direction_next ?v ?S] =>
      unfold_at direction_next (direction_next v S) S
  | |- context [direction_emit ?v ?S] =>
      unfold_at direction_emit (direction_emit v S) S
  | |- context [pause_next ?S] => unfold_at pause_next (pause_next S) S
  | |- context [pause_emit ?v ?S] =>
      unfold_at pause_emit (pause_emit v S) S
  | |- context [game_next ?S] => unfold_at game_next (game_next S) S
  end.

(** Splits on the innermost condition the execution is stuck on. *)
Ltac split_condition :=
  match goal with
  | |- context [live ?g] => is_var g; destruct g
  | |- context [match ?c with _ => _ end] =>
      lazymatch type of c with
      | State => fail
      | _ =>
          lazymatch c with
          | context [match _ with _ => _ end] => fail
          | _ => destruct c eqn:?
          end
      end
  end.

Ltac settle := updates; repeat (rewrite Nat.eqb_refl; updates).

Ltac exec := repeat (settle; first [split_condition | enter]); settle.

(** *** Counting detected consumptions *)

Lemma counting_init : counting init.
Proof. unfold counting; cbn; repeat split; f_equal; lia. Qed.

Ltac readers :=
  unfold latest, detected in *;
  cbn [collect hd_error List.length Nat.pred as_speed as_tick as_direction
       as_length as_score as_snake as_apples as_scene as_call] in *.

Ltac use_live :=
  cbn [live] in *;
  try match goal with
      | |- _ = true -> _ => intros ?
      end;
  repeat match goal with
         | H : ?a = true -> _, H' : ?a = true |- _ => specialize (H H')
         | H : true = true -> _ |- _ => specialize (H eq_refl)
         | H : _ /\ _ |- _ => destruct H
         end.

Ltac counting_tac :=
  match goal with
  | H : counting _ |- _ =>
      unfold counting in *; updates; updates in H; readers;
      destruct H as (? & ? & ? & ? & ?)
  end;
  destruct (collect as_apples _) as [|? ?];
  cbn [List.length Nat.min Nat.pred] in *; subst;
  try discriminate;
  repeat split; try assumption;
  use_live; subst; cbn [scan] in *;
  repeat split; try discriminate; try congruence; try (f_equal; lia).

Lemma counting_fire id s : counting s -> counting (fire id s).
Proof. destruct s; intros H; exec; counting_tac. Qed.

Lemma counting_step s e : counting s -> counting (step s e).
Proof.
  intros H; destruct e.
  4: { unfold step, elapse; apply fold_fire_inv.
       - intros id s'; apply counting_fire.
       - destruct s; exact H. }
  all: destruct s; exec; counting_tac.
Qed.

Lemma counting_run es : counting (run es).
Proof.
  apply run_ind; [exact counting_init | intros; now apply counting_step].
Qed.

(** *** The timer behind [ticks$] *)

Lemma ticking_init : ticking init.
Proof.
  eexists; cbn; repeat split; try reflexivity; try lia; constructor.
Qed.

Ltac bools :=
  repeat match goal with
         | H : (_ <=? _) = true |- _ => apply Z.leb_le in H
         | H : (_ <=? _) = false |- _ => apply Z.leb_gt in H
         | H : Nat.ltb _ _ = true |- _ => apply Nat.ltb_lt in H
         | H : Nat.ltb _ _ = false |- _ => apply Nat.ltb_ge in H
         end.

Lemma Forall_le_weaken (l : list Z) (a b : Z) :
  a <= b -> Forall (fun u => u <= a) l -> Forall (fun u => u <= b) l.
Proof. intros Hab; apply Forall_impl; intros; lia. Qed.

Lemma chain_tick (l : list Z) (a b : Z) :
  a < b -> Forall (fun u => u <= a) l ->
  chain (fun newer older => older < newer) l ->
  chain (fun newer older => older < newer) (b :: l).
Proof.
  intros Hab Hf Hc; destruct l as [|c l]; cbn; auto.
  split; [inversion Hf; lia | exact Hc].
Qed.

Lemma ticking_step s e : ticking s -> ticking (step s e).
Proof.
  intros (t & Ht & Hi & Hn & Hp & Hv & Hd & Hf & Hc).
  destruct s, t as [id p d]; cbn in Ht, Hi, Hn, Hp, Hv, Hd, Hf, Hc; subst.
  destruct e; exec.
  all: unfold ticking; updates; readers; cbn [tid period due] in *; bools.
  all: eexists; repeat split; try reflexivity; try eassumption;
    cbn [tid period due]; unfold delay in *; try lia.
  all: try (constructor; [lia|]).
  all: try (eapply Forall_le_weaken; [|eassumption]; lia).
  all: try (eapply chain_tick; [|eassumption|eassumption]; lia).
Qed.

Lemma ticking_run es : ticking (run es).
Proof.
  apply run_ind; [exact ticking_init | intros; now apply ticking_step].
Qed.

(** *** The render loop *)

Lemma rendering_init : rendering init.
Proof.
  unfold rendering; cbn; repeat split; try discriminate.
  exists []; split; [reflexivity | constructor].
Qed.

Ltac rendering_tac :=
  match goal with
  | H : rendering _ |- _ =>
      unfold rendering in *; updates; updates in H; readers;
      destruct H as (? & ? & ? & ? & ? & ?)
  end;
  cbn [live app] in *; subst;
  repeat match goal with
         | H : negb _ = true |- _ => apply negb_true_iff in H
         | H : negb _ = false |- _ => apply negb_false_iff in H
         end;
  repeat split; try assumption; try discriminate; try congruence;
  try solve [intuition (try discriminate; try congruence)];
  try match goal with
      | H : Forall _ ?shown
        |- exists l, ORenderScene ?sc :: _ = _ /\ _ =>
          exists (sc :: shown); split;
          [cbn [map]; congruence | constructor; assumption]
      | H : Forall _ ?shown |- exists l, _ =>
          exists shown; split; [cbn [app] in *; congruence | assumption]
      end.

Lemma rendering_fire id s : rendering s -> rendering (fire id s).
Proof. destruct s; intros H; exec; rendering_tac. Qed.

Lemma rendering_step s e : rendering s -> rendering (step s e).
Proof.
  intros H; destruct e.
  4: { unfold step, elapse; apply fold_fire_inv.
       - intros id s'; apply rendering_fire.
       - destruct s; exact H. }
  all: destruct s; exec; rendering_tac.
Qed.

Lemma rendering_run es : rendering (run es).
Proof.
  apply run_ind; [exact rendering_init | intros; now apply rendering_step].
Qed.

Lemma unrendered_fire cs g id s :
  unrendered cs g s -> unrendered cs g (fire id s).
Proof.
  destruct s; intros [H1 H2]; cbn in H1, H2; subst.
  exec; unfold unrendered; updates; readers; split; reflexivity.
Qed.

Lemma step_unrendered s e :
  e <> AnimationFrame ->
  unrendered (collect as_call (trace s)) (game s) (step s e).
Proof.
  intros He; destruct e; try congruence.
  3: { unfold step, elapse; apply fold_fire_inv.
       - intros id s'; apply unrendered_fire.
       - destruct s; split; reflexivity. }
  all: destruct s; exec; unfold unrendered; updates; readers; split;
    reflexivity.
Qed.

Lemma step_frame s :
  rendering s ->
  collect as_call (trace (step s AnimationFrame)) =
    rev (frame_calls s) ++ collect as_call (trace s) /\
  game (step s AnimationFrame) = frame_game s.
Proof.
  intros (Hs & _); unfold frame_calls, frame_game, sample; rewrite <- Hs.
  clear Hs; destruct s; exec; readers.
  all: try match goal with
           | H : isGameOver ?sc = _, H' : negb (isGameOver ?sc) = _ |- _ =>
               rewrite H in H'; discriminate
           end.
  all: split; reflexivity.
Qed.

(** *** The scene composer *)

Lemma composing_init : composing init.
Proof. unfold composing; cbn; repeat split; discriminate. Qed.

Ltac composing_pre :=
  match goal with
  | H : composing
          (mkState _ _ _ _ _ _ _ _ _ _ _ _ _ _ _ _ _ _ _ _ _ _ _ ?g _) |- _ =>
      destruct g;
      unfold composing in H; updates in H; readers; cbn [live] in H;
      destruct H as (? & ? & H);
      try (specialize (H eq_refl); destruct H as (? & ? & ? & ? & H);
           destruct (collect as_scene _) as [|? ?] eqn:?;
           cbn [hd_error] in H;
           [destruct H as (? & ?) | destruct H as (? & ? & ?)])
  end;
  subst.

Ltac composing_post :=
  unfold composing; updates; readers; cbn [grounded snake apples score];
  readers;
  repeat match goal with
         | E : collect as_scene _ = _ |- _ => rewrite E; clear E
         end;
  cbn [In hd_error snake apples score];
  repeat split; try assumption; try reflexivity; try discriminate;
  try congruence;
  repeat match goal with
         | H : hd_error _ = Some _ |- _ => apply hd_error_In in H
         | H : Some _ = hd_error _ |- _ => symmetry in H; apply hd_error_In in H
         end;
  auto.

Lemma composing_fire id s : composing s -> composing (fire id s).
Proof.
  destruct s; intros H; composing_pre; exec; composing_post.
Qed.

Lemma composing_step s e : composing s -> composing (step s e).
Proof.
  intros H; destruct e.
  4: { unfold step, elapse; apply fold_fire_inv.
       - intros id s'; apply composing_fire.
       - destruct s; exact H. }
  all: destruct s; composing_pre; exec; composing_post.
Qed.

Lemma composing_run es : composing (run es).
Proof.
  apply run_ind; [exact composing_init | intros; now apply composing_step].
Qed.

(** *** The tick intervals *)
Section Speed.

(** A floor under the initial interval that [incrementSnakeSpeed] respects. *)
Variable floor : Z.
Hypothesis floor_initial : floor <= 150.
Hypothesis increment_ok :
  forall v, floor <= v -> floor <= incrementSnakeSpeed v <= v.

Lemma slowing_init : slowing floor init.
Proof.
  unfold slowing; cbn; repeat split; repeat constructor; exact floor_initial.
Qed.

Lemma slowing_fire id s : slowing floor s -> slowing floor (fire id s).
Proof.
  destruct s; intros (Hv & Hc & Hf); cbn in Hv, Hc, Hf.
  exec; unfold slowing; updates; readers; repeat split; try assumption.
  all: unfold latest in Hv; destruct (collect as_speed trace0) as [|v0 vs];
    [discriminate|injection Hv as ->].
  all: pose proof (increment_ok SPEED0) as Hi; inversion Hf; subst.
  all: cbn [chain]; repeat split; try constructor; try assumption; try lia.
Qed.

Lemma slowing_step s e : slowing floor s -> slowing floor (step s e).
Proof.
  intros H; destruct e.
  4: { unfold step, elapse; apply fold_fire_inv.
       - intros id s'; apply slowing_fire.
       - destruct s; exact H. }
  all: destruct s; destruct H as (Hv & Hc & Hf); cbn in Hv, Hc, Hf;
    exec; unfold slowing; updates; readers; repeat split; assumption.
Qed.

Lemma slowing_run es : slowing floor (run es).
Proof.
  apply run_ind; [exact slowing_init | intros; now apply slowing_step].
Qed.

End Speed.

(** *** The direction fold *)

Lemma steering_fire acc id s : steering acc s -> steering acc (fire id s).
Proof.
  destruct s; intros (H1 & H2); cbn in H1, H2.
  exec; unfold steering; updates; readers; split; assumption.
Qed.

Lemma steering_step s e :
  steering (direction_acc s) s ->
  steering (match input e with
            | Some d => Some (scan nextDirection (direction_acc s) d)
            | None => direction_acc s
            end) (step s e).
Proof.
  intros H; destruct e; unfold input.
  4: { unfold step, elapse; apply fold_fire_inv.
       - intros id s'; apply steering_fire.
       - destruct s; exact H. }
  all: destruct s; destruct H as (H1 & H2); cbn in H1, H2; subst; exec;
    unfold steering; updates; readers; split; congruence.
Qed.

Lemma steering_run es : steering (resolved (inputs es)) (run es).
Proof.
  induction es as [|e es IH] using rev_ind.
  - split; reflexivity.
  - rewrite run_snoc; unfold inputs, resolved in *.
    rewrite flat_map_app, fold_left_app; cbn [flat_map]; rewrite app_nil_r.
    destruct IH as (IH1 & IH2).
    pose proof (steering_step (run es) e) as Hs.
    rewrite IH1 in Hs; specialize (Hs (conj IH1 IH2)).
    unfold input in Hs.
    destruct e; try exact Hs; destruct (toDirection _); exact Hs.
Qed.

(** The first direction that passes the filter becomes the accumulator of
    [scan(nextDirection)] as it is; every later one is combined with the
    accumulator. *)
Lemma resolved_first (d : Heading) : resolved [d] = Some d.
Proof. reflexivity. Qed.

Lemma resolved_later (ds : list Heading) (a d : Heading) :
  resolved ds = Some a -> resolved (ds ++ [d]) = Some (nextDirection a d).
Proof.
  unfold resolved; intros Ha; rewrite fold_left_app, Ha; reflexivity.
Qed.

(** Whatever [nextDirection] is, the first input is emitted as it is when it
    is another object than [INITIAL_DIRECTION]. *)
Lemma first_direction_step s e d :
  input e = Some d ->
  direction_acc s = None ->
  direction_last s = Some INITIAL_DIRECTION ->
  same INITIAL_DIRECTION d = false ->
  direction_acc (step s e) = Some d /\
  latest as_direction (trace (step s e)) = Some d /\
  wl_direction (step s e) = Some d.
Proof.
  intros He Ha Hl Hd; destruct s; cbn in Ha, Hl; subst.
  unfold input in He; destruct e; try discriminate.
  all: exec; readers.
  all: try congruence.
  all: try match goal with
           | E : negb (same _ ?d') = false |- _ =>
               assert (d' = d) by congruence; subst d';
               rewrite Hd in E; discriminate
           end.
  all: repeat split; congruence.
Qed.

Lemma first_input_not_validated e d :
  input e = Some d ->
  same INITIAL_DIRECTION d = false ->
  direction_acc (run [e]) = Some d /\
  latest as_direction (trace (run [e])) = Some d /\
  wl_direction (run [e]) = Some d.
Proof.
  intros He Hd; apply first_direction_step; auto.
Qed.

(** The first emission of [apples$] is dropped by [skip(1)]: as long as
    [apples$] has emitted at most once, the target length is the initial
    one and the score is zero. *)
Lemma first_food_emission_not_counted es :
  (List.length (collect as_apples (trace (run es))) <= 1)%nat ->
  wl_snakeLength (run es) = Some SNAKE_LENGTH /\
  (game (run es) = Subscribed -> score_acc (run es) = Some 0).
Proof.
  intros Hn; destruct (counting_run es) as (_ & Hl & Hw & _ & Hs).
  assert (Hd : detected (trace (run es)) = 0%nat) by (unfold detected; lia).
  rewrite Hd in *; split.
  - rewrite Hw, Hl; f_equal; lia.
  - intros Hg; rewrite Hg in Hs; destruct (Hs eq_refl) as (Hsc & _).
    rewrite Hsc; f_equal; lia.
Qed.

(** ** Properties of every run *)

(** C9.  The growth step is the score award: each consumption detected by
    [appleEaten$] pushes [POINTS_PER_APPLE] into [length$], which the
    accumulator of [snakeLength$] adds; after [n] detected consumptions the
    accumulator, the value [snake$] samples and the last emission are
    [SNAKE_LENGTH + n * POINTS_PER_APPLE]. *)
Theorem length_grows_by_points_per_apple es :
  let s := run es in
  let target :=
    Some (SNAKE_LENGTH + Z.of_nat (detected (trace s)) * POINTS_PER_APPLE) in
  snakeLength_acc s = target /\
  wl_snakeLength s = target /\
  latest as_length (trace s) = target /\
  (forall l, snakeLength_acc s = Some l ->
             snakeLength_acc (appleEaten_tap s) = Some (l + POINTS_PER_APPLE)).
Proof.
  cbv zeta; destruct (counting_run es) as (_ & Hl & Hw & Ho & _).
  repeat split; try congruence.
  intros l Hacc; clear Hl Hw Ho; destruct (run es); cbn in Hacc; subst.
  exec; f_equal; lia.
Qed.

(** The score while the render loop is subscribed: [POINTS_PER_APPLE] for
    each consumption detected by [appleEaten$]. *)
Lemma score_counts_detected es :
  game (run es) = Subscribed ->
  score_acc (run es) =
    Some (Z.of_nat (detected (trace (run es))) * POINTS_PER_APPLE) /\
  latest as_score (trace (run es)) = score_acc (run es).
Proof.
  intros Hg; destruct (counting_run es) as (_ & _ & _ & _ & Hs).
  rewrite Hg in Hs; destruct (Hs eq_refl) as (H1 & H2 & _); auto.
Qed.

(** C3.  The render loop: the calls made so far are [renderScene] on scenes
    that are not game over, followed by one [renderGameOver] exactly when
    the loop has completed; an animation frame samples the latest scene
    and either renders it or, when it is game over, completes the loop with
    [renderGameOver]; no other event calls the renderer; once completed,
    nothing more is sampled or rendered. *)
Theorem render_loop_stops_at_game_over es :
  let s := run es in
  (exists shown,
     calls (trace s) =
       map ORenderScene shown ++
       (if live (game s) then [] else [ORenderGameOver]) /\
     Forall (fun sc => isGameOver sc = false) shown) /\
  (forall e,
     calls (trace (step s e)) =
       calls (trace s) ++
       match e with AnimationFrame => frame_calls s | _ => [] end /\
     game (step s e) =
       match e with AnimationFrame => frame_game s | _ => game s end) /\
  (game s = Completed ->
   forall es',
     calls (trace (run (es ++ es'))) = calls (trace s) /\
     game (run (es ++ es')) = Completed).
Proof.
  cbv zeta.
  assert (Hstep : forall es e,
             calls (trace (step (run es) e)) =
               calls (trace (run es)) ++
               match e with AnimationFrame => frame_calls (run es) | _ => [] end /\
             game (step (run es) e) =
               match e with
               | AnimationFrame => frame_game (run es)
               | _ => game (run es)
               end).
  { intros es0 e; unfold calls.
    destruct e.
    3: { destruct (step_frame _ (rendering_run es0)) as [-> ->].
         rewrite rev_app_distr, rev_involutive; split; reflexivity. }
    all: match goal with
         | |- context [step _ ?e] =>
             destruct (step_unrendered (run es0) e ltac:(discriminate))
               as [-> ->]
         end; rewrite app_nil_r; split; reflexivity. }
  split; [|split].
  - destruct (rendering_run es) as (_ & _ & _ & shown & Hc & Hf).
    exists (rev shown); unfold calls; rewrite Hc, rev_app_distr, map_rev.
    split; [destruct (live _); reflexivity | now apply Forall_rev].
  - apply Hstep.
  - intros Hg es'; induction es' as [|e es' IH] using rev_ind.
    + rewrite app_nil_r; auto.
    + rewrite app_assoc, run_snoc.
      destruct (Hstep (es ++ es') e) as [Hc Hgame], IH as [IHc IHg].
      rewrite Hc, Hgame, IHc.
      unfold frame_calls, frame_game, sample; rewrite IHg; cbn [live].
      destruct e; rewrite app_nil_r; auto.
Qed.

(** C10.  Before [scene$] has emitted, the renderer has not been called, and
    an animation frame is dropped: it changes nothing. *)
Theorem no_render_before_first_scene es :
  latest as_scene (trace (run es)) = None ->
  calls (trace (run es)) = [] /\
  step (run es) AnimationFrame = run es.
Proof.
  intros Hn; destruct (rendering_run es) as (Hs & _ & Hc & _).
  destruct (Hc Hn) as [Hcalls _]; split.
  - unfold calls; rewrite Hcalls; reflexivity.
  - rewrite Hn in Hs; cbn [step]; unfold game_next; rewrite Hs.
    destruct (live _); reflexivity.
Qed.

Lemma switched_step s e : ticking s -> switched s (step s e).
Proof.
  intros (t & Ht & Hi & Hn & Hp & Hv & Hd & Hf & Hc).
  destruct s, t as [id p d]; cbn in Ht, Hi, Hn, Hp, Hv, Hd, Hf, Hc; subst.
  destruct e; exec.
  all: unfold switched; updates; readers; split.
  all: first [left; reflexivity
             | right; eexists; repeat split; cbn [tid period due]; lia
             | right; do 2 eexists; repeat split; cbn [tid period due]; lia].
Qed.

(** ** Further properties of every run *)

Ltac observe :=
  unfold latest, detected in *;
  cbn [collect hd_error hd List.length Nat.pred as_speed as_tick
       as_direction as_length as_score as_snake as_apples as_scene as_call
       as_pause] in *.

(** *** [pause$] *)

Lemma pausing_fire p id s : pausing p s -> pausing p (fire id s).
Proof.
  destruct s; intros (H1 & H2 & H3 & H4 & H5); cbn in H1, H2, H3, H4, H5.
  exec; unfold pausing; updates; observe; repeat split; assumption.
Qed.

Lemma pausing_step p s e :
  pausing p s -> pausing (if pauses e then negb p else p) (step s e).
Proof.
  intros Hp; destruct e; unfold pauses.
  4: { unfold step, elapse; apply fold_fire_inv.
       - intros id s'; apply pausing_fire.
       - destruct s; exact Hp. }
  all: destruct s; destruct Hp as (H1 & H2 & H3 & H4 & H5);
    cbn in H1, H2, H3, H4, H5; subst.
  all: destruct p; exec; unfold pausing; updates; observe.
  all: try discriminate.
  all: destruct (collect as_pause trace0) as [|? ?]; try discriminate.
  all: cbn [hd_error chain] in *; try (injection H4 as H4; subst);
    repeat split; try assumption; try reflexivity.
Qed.

Lemma pausing_run es : pausing (Nat.odd (pause_presses es)) (run es).
Proof.
  induction es as [|e es IH] using rev_ind.
  - unfold pausing; cbn; repeat split.
  - rewrite run_snoc; unfold pause_presses in *.
    rewrite filter_app, length_app; cbn [filter].
    apply pausing_step with (e := e) in IH.
    destruct (pauses e); cbn [List.length].
    + rewrite Nat.add_1_r, Nat.odd_succ, <- Nat.negb_odd; exact IH.
    + rewrite Nat.add_0_r; exact IH.
Qed.

Lemma pause_emits_fire c id s :
  collect as_pause (trace s) = c -> collect as_pause (trace (fire id s)) = c.
Proof.
  destruct s; intros H; cbn in H; exec; observe; exact H.
Qed.

Lemma pause_emits_step p s e :
  pausing p s ->
  collect as_pause (trace (step s e)) =
    (if pauses e then [negb p] else []) ++ collect as_pause (trace s).
Proof.
  intros Hp; destruct e; unfold pauses.
  4: { unfold step, elapse; apply fold_fire_inv.
       - intros id s'; apply pause_emits_fire.
       - destruct s; reflexivity. }
  all: destruct s; destruct Hp as (H1 & H2 & _); cbn in H1, H2; subst.
  all: destruct p; exec; observe; try reflexivity; discriminate.
Qed.

Lemma pause_emits_run es :
  List.length (collect as_pause (trace (run es))) = S (pause_presses es).
Proof.
  induction es as [|e es IH] using rev_ind; [reflexivity|].
  rewrite run_snoc, (pause_emits_step _ _ e (pausing_run es)).
  unfold pause_presses in *; rewrite filter_app, !length_app, IH.
  cbn [filter]; destruct (pauses e); cbn [List.length]; lia.
Qed.

(** X1.  The pause flag is the parity of the pause key presses: [PAUSE],
    the value [snake$] samples and the last emission of [pause$] are [true]
    exactly after an odd number of them.  [pause$] emits once for each
    press, after its initial [false], and every emission is the negation of
    the one before: [distinctUntilChanged] never holds one back. *)
Theorem pause_is_parity_of_presses es :
  let p := Nat.odd (pause_presses es) in
  PAUSE (run es) = p /\
  wl_pause (run es) = Some p /\
  latest as_pause (trace (run es)) = Some p /\
  List.length (collect as_pause (trace (run es))) = S (pause_presses es) /\
  chain (fun newer older => newer = negb older)
        (collect as_pause (trace (run es))).
Proof.
  cbv zeta; destruct (pausing_run es) as (H1 & _ & H3 & H4 & H5).
  pose proof (pause_emits_run es).
  repeat split; assumption.
Qed.

(** *** [direction$] *)

Lemma deduping_fire id s : deduping s -> deduping (fire id s).
Proof.
  destruct s; intros (H1 & H2); cbn in H1, H2.
  exec; unfold deduping; updates; observe; split; assumption.
Qed.

Lemma deduping_step s e : deduping s -> deduping (step s e).
Proof.
  intros Hd; destruct e.
  4: { unfold step, elapse; apply fold_fire_inv.
       - intros id s'; apply deduping_fire.
       - destruct s; exact Hd. }
  all: destruct s; destruct Hd as (H1 & H2); cbn in H1, H2.
  all: exec; unfold deduping; updates; observe.
  all: try (split; assumption).
  all: unfold distinctUntilChanged in *; subst direction_last0.
  all: destruct (collect as_direction trace0) as [|l ds];
    cbn [hd_error chain] in *.
  all: repeat match goal with
         | H : negb _ = true |- _ => apply negb_true_iff in H
         end.
  all: repeat split; try assumption; try reflexivity; try discriminate.
Qed.

Lemma deduping_run es : deduping (run es).
Proof.
  apply run_ind; [|intros; now apply deduping_step].
  unfold deduping; cbn; repeat split.
Qed.

(** X2.  [direction$] never emits the object it emitted last: two
    consecutive emissions differ by identity, the initial direction
    included. *)
Theorem direction_never_repeats es :
  chain (fun newer older => same older newer = false)
        (collect as_direction (trace (run es))) /\
  (exists later,
     collect as_direction (trace (run es)) = later ++ [INITIAL_DIRECTION]).
Proof.
  split; [apply deduping_run|].
  apply run_ind with (P := fun s => exists later,
    collect as_direction (trace s) = later ++ [INITIAL_DIRECTION]).
  - exists []; reflexivity.
  - intros s e [later Hl]; destruct e.
    4: { unfold step, elapse; apply fold_fire_inv.
         - intros id s' Hs'; destruct s'; cbn in Hs'.
           exec; observe; assumption.
         - destruct s; exists later; exact Hl. }
    all: destruct s; cbn in Hl; exec; observe; rewrite Hl.
    all: first [ now exists later | now eexists (_ :: later) ].
Qed.

(** *** [appleEaten$] *)

Ltac accelerating_tac :=
  unfold accelerating; updates; observe;
  repeat match goal with
         | H : (_ <? _)%nat = true |- _ => apply Nat.ltb_lt in H
         | H : (_ <? _)%nat = false |- _ => apply Nat.ltb_ge in H
         | H : _ /\ _ |- _ => destruct H
         end;
  try match goal with
      | |- context [collect as_apples ?tr] =>
          destruct (collect as_apples tr) as [|? [|? ?]];
          cbn [List.length Nat.pred Nat.min Nat.iter nat_rect] in *
      end;
  repeat split; try lia; try congruence.

Lemma accelerating_fire id s : accelerating s -> accelerating (fire id s).
Proof.
  destruct s; intros H; unfold accelerating in H; cbn in H.
  exec; accelerating_tac.
Qed.

Lemma accelerating_step s e : accelerating s -> accelerating (step s e).
Proof.
  intros H; destruct e.
  4: { unfold step, elapse; apply fold_fire_inv.
       - intros id s'; apply accelerating_fire.
       - destruct s; exact H. }
  all: destruct s; unfold accelerating in H; cbn in H; exec;
    accelerating_tac.
Qed.

Lemma accelerating_run es : accelerating (run es).
Proof.
  apply run_ind; [|intros; now apply accelerating_step].
  unfold accelerating; cbn; repeat split.
Qed.

(** X4.  Every consumption detected by [appleEaten$] does all three things
    of its [tap]: [SPEED] is [incrementSnakeSpeed] applied that many times to
    150, and [speedSubject] and [snakeLength$] have each emitted once per
    detected consumption, after their initial value. *)
Theorem consumption_speeds_up_and_grows es :
  let s := run es in
  SPEED s = Nat.iter (detected (trace s)) incrementSnakeSpeed 150 /\
  List.length (collect as_speed (trace s)) = S (detected (trace s)) /\
  List.length (collect as_length (trace s)) = S (detected (trace s)).
Proof.
  cbv zeta; destruct (accelerating_run es) as (_ & H1 & H2 & H3).
  repeat split; assumption.
Qed.

(** *** [snake$] *)

Ltac sampling_tac :=
  unfold sampling; updates; observe;
  repeat match goal with
         | H : _ /\ _ |- _ => destruct H
         end;
  repeat split; try assumption; try discriminate; try congruence;
  try (cbn [List.length]; congruence).

Lemma sampling_fire id s : sampling s -> sampling (fire id s).
Proof.
  destruct s; intros H; unfold sampling in H; cbn in H.
  exec; sampling_tac.
Qed.

Lemma sampling_step s e : sampling s -> sampling (step s e).
Proof.
  intros H; destruct e.
  4: { unfold step, elapse; apply fold_fire_inv.
       - intros id s'; apply sampling_fire.
       - destruct s; exact H. }
  all: destruct s; unfold sampling in H; cbn in H; exec; sampling_tac.
Qed.

Lemma sampling_run es : sampling (run es).
Proof.
  apply run_ind; [|intros; now apply sampling_step].
  unfold sampling; cbn; repeat split; discriminate.
Qed.

Lemma moved_step s e : ticking s -> sampling s -> moved s (step s e).
Proof.
  intros (t & Ht & _) Hs; destruct s, t as [id p d].
  unfold sampling in Hs; cbn in Ht, Hs; subst.
  destruct Hs as (Hd & Hl & Hp & Hd' & Hl' & Hp' & _ & Hsn).
  destruct e; unfold step, elapse; updates; exec; unfold moved; updates;
    observe.
  all: try (left; split; reflexivity).
  all: try congruence.
  all: right;
    match goal with
    | H1 : Some ?d = hd_error (collect as_direction _),
      H2 : Some ?l = hd_error (collect as_length _),
      H3 : Some ?p = hd_error (collect as_pause _) |- _ =>
        exists d, l, p; rewrite <- Hsn, <- H1, <- H2, <- H3
    end.
  all: repeat split; reflexivity.
Qed.

(** X5.  [snake$] emits once per tick and never without one.  The snake of
    a tick is [move] applied to the last snake, or to [generateSnake()] at
    the first tick, with the latest direction, length and pause flag that
    [direction$], [snakeLength$] and [pause$] emitted before the tick. *)
Theorem tick_moves_with_latest_inputs es e :
  List.length (collect as_snake (trace (run es))) =
    List.length (collect as_tick (trace (run es))) /\
  moved (run es) (step (run es) e).
Proof.
  split.
  - apply sampling_run.
  - apply moved_step; [apply ticking_run | apply sampling_run].
Qed.

(** *** What only the ticks do *)

(** X6.  A key, a click or an animation frame moves nothing in the
    simulation: the snake, the food, the random state, the interval and its
    timer, the length and the score are as before, and none of [ticks$],
    [snake$], [apples$], [speedSubject], [snakeLength$], [score$] and
    [scene$] emits. *)
Theorem only_ticks_drive_the_simulation s e :
  match e with
  | Elapse => True
  | _ =>
      simulation (step s e) = simulation s /\
      simulated (trace (step s e)) = simulated (trace s)
  end.
Proof.
  destruct e; [| | |exact I].
  all: destruct s; exec; unfold simulation, simulated; updates; observe;
    split; reflexivity.
Qed.

(** *** After the game is over *)

Lemma displayed_fire c id s :
  displayed s = c /\ game s = Completed ->
  displayed (fire id s) = c /\ game (fire id s) = Completed.
Proof.
  destruct s; unfold displayed; intros [H Hg]; cbn in H, Hg; subst game0.
  exec; unfold displayed; updates; observe; split; first [assumption | reflexivity].
Qed.

Lemma displayed_step s e :
  game s = Completed ->
  displayed (step s e) = displayed s /\ game (step s e) = Completed.
Proof.
  intros Hg; destruct e.
  4: { unfold step, elapse.
       apply fold_fire_inv
         with (P := fun s' => displayed s' = displayed s /\ game s' = Completed).
       - intros id s'; apply displayed_fire.
       - destruct s; split; [reflexivity | exact Hg]. }
  all: destruct s; cbn in Hg; subst game0; exec; unfold displayed; updates;
    observe; split; reflexivity.
Qed.

(** X7.  Once [renderGameOver] has run, [scene$] and [score$] never emit
    again and the renderer is never called again, whatever events follow;
    but the interval behind [ticks$] is never cleared: a timer stays
    alive. *)
Theorem game_over_freezes_the_display es :
  game (run es) = Completed ->
  forall more,
    displayed (run (es ++ more)) = displayed (run es) /\
    timers (run (es ++ more)) <> [].
Proof.
  intros Hg more; split.
  - enough (displayed (run (es ++ more)) = displayed (run es) /\
            game (run (es ++ more)) = Completed) by tauto.
    induction more as [|e more IH] using rev_ind.
    + rewrite app_nil_r; auto.
    + rewrite app_assoc, run_snoc; destruct IH as [IHd IHg].
      destruct (displayed_step _ e IHg) as [-> ?]; auto.
  - destruct (ticking_run (es ++ more)) as (t & -> & _); discriminate.
Qed.

(** *** The direction the snake follows *)

Lemma same_refl {A} (a : Obj A) : same a a = true.
Proof. apply Nat.eqb_refl. Qed.

Lemma following_fire id s : following s -> following (fire id s).
Proof.
  destruct s; intros (l & H1 & H2 & H3 & H4); cbn in H1, H2, H3, H4.
  exec; exists l; updates; observe; repeat split; assumption.
Qed.

Lemma following_step s e : following s -> following (step s e).
Proof.
  intros H; destruct e.
  4: { unfold step, elapse; apply fold_fire_inv.
       - intros id s'; apply following_fire.
       - destruct s; exact H. }
  all: destruct s; destruct H as (l & H1 & H2 & H3 & H4);
    cbn in H1, H2, H3, H4; subst.
  all: exec; unfold following; updates; observe.
  all: repeat match goal with
         | H : negb _ = true |- _ => apply negb_true_iff in H
         | H : negb _ = false |- _ => apply negb_false_iff in H
         end.
  all: first [ exists l; repeat split; assumption
             | eexists; repeat split; apply same_refl ].
Qed.

Lemma following_run es : following (run es).
Proof.
  apply run_ind; [|intros; now apply following_step].
  exists INITIAL_DIRECTION; cbn; repeat split; apply Nat.eqb_refl.
Qed.

(** X8.  The direction [snake$] samples is the last one [direction$]
    emitted, and it is, up to identity, the fold of [nextDirection] over the
    directions of all keys and clicks in arrival order, the first of them
    taken as it is; before any of them it is [INITIAL_DIRECTION]. *)
Theorem direction_is_fold_of_inputs es :
  exists l,
    wl_direction (run es) = Some l /\
    latest as_direction (trace (run es)) = Some l /\
    same l (match resolved (inputs es) with
            | Some a => a
            | None => INITIAL_DIRECTION
            end) = true.
Proof.
  destruct (following_run es) as (l & _ & H2 & H3 & H4).
  destruct (steering_run es) as [Ha _]; rewrite Ha in H4.
  exists l; repeat split; assumption.
Qed.

(** *** What an animation frame samples *)

(** X9.  While the render loop runs, the scene an animation frame samples
    holds the snake of the last tick and the food last emitted; its score is
    [POINTS_PER_APPLE] for each detected consumption, and the length the
    snake grows to is [SNAKE_LENGTH] plus that score. *)
Theorem frame_samples_current_game es :
  let s := run es in
  match sample s with
  | Some sc =>
      snake sc = snake_acc s /\
      apples_last s = Some (apples sc) /\
      score sc = Z.of_nat (detected (trace s)) * POINTS_PER_APPLE /\
      wl_snakeLength s = Some (SNAKE_LENGTH + score sc)
  | None => True
  end.
Proof.
  cbv zeta; unfold sample.
  destruct (composing_run es) as (_ & Hap & Hl).
  destruct (counting_run es) as (_ & Hlen & Hwl & _ & Hs).
  destruct (sampling_run es) as (_ & _ & _ & _ & _ & _ & _ & Hsn).
  destruct (live (game (run es))); [|exact I].
  destruct (latest as_scene (trace (run es))) as [sc|] eqn:E; [|exact I].
  destruct (Hl eq_refl) as (H1 & H2 & H3 & _ & H4 & H5 & H6).
  destruct (Hs eq_refl) as (H7 & _ & H9).
  assert (Hsc : score sc = Z.of_nat (detected (trace (run es))) * POINTS_PER_APPLE)
    by congruence.
  repeat split.
  - rewrite Hsn; unfold latest in H1.
    destruct (collect as_snake (trace (run es))); cbn in *; congruence.
  - congruence.
  - exact Hsc.
  - rewrite Hwl, Hlen, Hsc; reflexivity.
Qed.

(** *** The render loop is an observer *)

Ltac reuse :=
  repeat (match goal with
          | H : ?c = _ |- context [match ?c with _ => _ end] => rewrite H
          end; settle).

Ltac exec2 :=
  repeat (settle; reuse; first [split_condition | enter]); settle; reuse.

Ltac alike_pre :=
  match goal with
  | H : alike ?s1 ?s2 |- _ =>
      destruct s1, s2; unfold alike, world, streams in H; cbn in H;
      destruct H as [Hw Ht]; injection Hw as; injection Ht as; subst
  end.

Ltac alike_post :=
  unfold alike, world, streams; updates; observe;
  split; congruence.

Lemma alike_fire id s1 s2 : alike s1 s2 -> alike (fire id s1) (fire id s2).
Proof.
  intros H; alike_pre; exec2; alike_post.
Qed.

Lemma alike_timers s1 s2 : alike s1 s2 -> timers s1 = timers s2.
Proof. intros [H _]; unfold world in H; congruence. Qed.

Lemma alike_fold ids :
  forall s1 s2,
    alike s1 s2 ->
    alike (fold_left (fun s id => fire id s) ids s1)
          (fold_left (fun s id => fire id s) ids s2).
Proof.
  induction ids as [|id ids IH]; intros s1 s2 H; cbn [fold_left].
  - exact H.
  - apply IH, alike_fire, H.
Qed.

Lemma alike_elapse s1 s2 : alike s1 s2 -> alike (elapse s1) (elapse s2).
Proof.
  intros H; unfold elapse.
  assert (H' : alike (set_now (now s1 + 1) s1) (set_now (now s2 + 1) s2)).
  { alike_pre; alike_post. }
  rewrite (alike_timers _ _ H'); apply alike_fold, H'.
Qed.

Lemma alike_step s1 s2 e : alike s1 s2 -> alike (step s1 e) (step s2 e).
Proof.
  intros H; destruct e.
  4: now apply alike_elapse.
  all: alike_pre; exec2; alike_post.
Qed.

Lemma alike_frame s1 s2 : alike s1 s2 -> alike (step s1 AnimationFrame) s2.
Proof.
  intros H; alike_pre; exec; alike_post.
Qed.

(** X10.  The render loop only observes.  Dropping every animation frame
    from a run, the one that ends the game included, changes nothing of what
    [ticks$], [snake$], [apples$], [speedSubject], [snakeLength$],
    [direction$] and [pause$] hold and emit. *)
Theorem frames_do_not_steer_the_game es :
  alike (run es) (run (filter (fun e => negb (is_frame e)) es)).
Proof.
  induction es as [|e es IH] using rev_ind.
  - split; reflexivity.
  - rewrite filter_app, !run_snoc; cbn [filter].
    destruct e; cbn [is_frame negb].
    3: rewrite app_nil_r; now apply alike_frame.
    all: rewrite run_snoc; now apply alike_step.
Qed.

(** *** Requests that [nextDirection] turns down *)

Lemma rejected_step s e d a :
  following s ->
  input e = Some d ->
  direction_acc s = Some a ->
  nextDirection a d = a ->
  collect as_direction (trace (step s e)) = collect as_direction (trace s) /\
  wl_direction (step s e) = wl_direction s /\
  direction_acc (step s e) = Some a.
Proof.
  intros (l & H1 & H2 & H3 & H4) He Ha Hr; destruct s.
  cbn in H1, H2, H3, H4, Ha; subst.
  unfold input in He; destruct e; try discriminate.
  all: exec; observe.
  all: try congruence.
  all: repeat match goal with
         | H : Some _ = Some _ |- _ => injection H as H; subst
         end.
  all: rewrite ?Hr in *.
  all: try match goal with
           | H : negb (same _ _) = true |- _ =>
               apply negb_true_iff in H; congruence
           end.
  all: repeat split; reflexivity.
Qed.

(** X11.  After the first key or click, a request that [nextDirection]
    answers with the direction it already holds is silent: [direction$]
    emits nothing and [snake$] keeps sampling the same direction. *)
Theorem rejected_request_is_silent es e d a :
  input e = Some d ->
  resolved (inputs es) = Some a ->
  nextDirection a d = a ->
  collect as_direction (trace (step (run es) e)) =
    collect as_direction (trace (run es)) /\
  wl_direction (step (run es) e) = wl_direction (run es).
Proof.
  intros He Ha Hr.
  destruct (steering_run es) as [Hacc _]; rewrite Ha in Hacc.
  destruct (rejected_step _ _ _ _ (following_run es) He Hacc Hr)
    as (H1 & H2 & _).
  split; assumption.
Qed.

(** *** The pause flag and the snake *)

(** X12.  While the pause flag is set, ticks keep coming but the snake
    stands still, provided [move] returns a paused snake as it is. *)
Theorem paused_snake_stands_still es e :
  (forall sn d l, move sn (d, l, true) = sn) ->
  Nat.odd (pause_presses es) = true ->
  snake_acc (step (run es) e) = snake_acc (run es).
Proof.
  intros Hm Hp.
  destruct (pausing_run es) as (_ & _ & _ & Hl & _); rewrite Hp in Hl.
  pose proof (sampling_run es) as Hs.
  pose proof (sampling_run (es ++ [e])) as Hs'; rewrite run_snoc in Hs'.
  destruct Hs as (_ & _ & _ & _ & _ & _ & _ & ->).
  destruct Hs' as (_ & _ & _ & _ & _ & _ & _ & ->).
  destruct (moved_step (run es) e (ticking_run es) (sampling_run es))
    as [[_ ->] | (d & l & p & _ & _ & Hp' & _ & ->)]; [reflexivity|].
  assert (p = true) by congruence; subst p.
  cbn [hd]; apply Hm.
Qed.

(** *** Unit vectors *)

Section Units.

Hypothesis initial_unit : is_unit INITIAL_DIRECTION.
Hypothesis next_selects :
  forall p r, nextDirection p r = p \/ nextDirection p r = r.

Ltac units_tac :=
  unfold unit_steering; updates; observe;
  repeat match goal with
         | H : toDirection ?e = Some _,
           He : match toDirection ?e with _ => _ end |- _ => rewrite H in He
         | H : _ /\ _ |- _ => destruct H
         | |- context [nextDirection ?a ?d] =>
             let E := fresh in
             destruct (next_selects a d) as [E|E]; rewrite E in *; clear E
         end;
  repeat split; try assumption; try (constructor; assumption).

Lemma unit_steering_fire id s : unit_steering s -> unit_steering (fire id s).
Proof.
  destruct s; intros H; unfold unit_steering in H; cbn in H.
  exec; units_tac.
Qed.

Lemma unit_steering_step s e :
  unit_steering s ->
  match input e with Some d => is_unit d | None => True end ->
  unit_steering (step s e).
Proof.
  intros H He; destruct e.
  4: { unfold step, elapse; apply fold_fire_inv.
       - intros id s'; apply unit_steering_fire.
       - destruct s; exact H. }
  all: destruct s; unfold unit_steering in H; cbn in H; unfold input in He.
  all: destruct direction_acc0; exec; units_tac.
Qed.

Lemma unit_steering_run es :
  Forall is_unit (inputs es) -> unit_steering (run es).
Proof.
  induction es as [|e es IH] using rev_ind; intros Hu.
  - unfold unit_steering; cbn; split; [exact I|].
    constructor; [exact initial_unit | constructor].
  - unfold inputs in Hu; rewrite flat_map_app in Hu.
    apply Forall_app in Hu as [Hes He]; rewrite run_snoc.
    apply unit_steering_step; [now apply IH|].
    unfold input; cbn [flat_map] in He; destruct e; try exact I.
    all: destruct (toDirection _); [|exact I].
    all: now inversion He.
Qed.

(** X13.  In a run where every key and click that passes the [filter] maps
    to a unit vector, when [INITIAL_DIRECTION] is one and [nextDirection]
    answers with one of its two arguments, every value [direction$] emits,
    and so the one a tick hands to [move], is one of the four unit
    vectors. *)
Theorem directions_are_unit_vectors es :
  Forall is_unit (inputs es) ->
  Forall is_unit (collect as_direction (trace (run es))) /\
  exists d, wl_direction (run es) = Some d /\ is_unit d.
Proof.
  intros Hu; destruct (unit_steering_run es Hu) as [_ Hf]; split; [exact Hf|].
  destruct (following_run es) as (l & _ & Hw & Hl & _).
  exists l; split; [exact Hw|].
  rewrite Forall_forall in Hf; apply Hf, hd_error_In, Hl.
Qed.

End Units.

(** *** How many scenes *)

Ltac glitching_tac :=
  unfold glitching; updates; observe;
  repeat match goal with
         | H : (_ <? _)%nat = true |- _ => apply Nat.ltb_lt in H
         | H : (_ <? _)%nat = false |- _ => apply Nat.ltb_ge in H
         | H : distinctUntilChanged _ None _ = false |- _ => discriminate H
         | H : _ /\ _ |- _ => destruct H
         end.

Ltac glitching_cases :=
  match goal with
  | |- context [List.length (collect as_tick ?tr)] =>
      is_var tr;
      destruct (List.length (collect as_tick tr)) eqn:?;
      destruct (List.length (collect as_apples tr)) as [|[|?]] eqn:?
  end;
  cbn [Nat.pred Nat.min live] in *;
  repeat match goal with
         | H : ?x = ?x -> _ |- _ => specialize (H eq_refl)
         | H : false = true -> _ |- _ => clear H
         | H : S _ <> 0%nat -> _ |- _ => specialize (H ltac:(discriminate))
         | H : S _ = 0%nat -> _ |- _ => clear H
         | H : 0%nat <> 0%nat -> _ |- _ => clear H
         | H : _ /\ _ |- _ => destruct H
         end;
  subst.

Ltac glitching_close :=
  repeat match goal with
         | |- _ /\ _ => split
         | |- _ <> _ => fail 1
         | |- _ -> _ => intro
         end;
  repeat match goal with
         | H : ?P -> _, H' : ?P |- _ => specialize (H H')
         | H : ?x = ?x -> _ |- _ => specialize (H eq_refl)
         | H : S _ <> 0%nat -> _ |- _ => specialize (H ltac:(discriminate))
         | H : _ /\ _ |- _ => destruct H
         end;
  try discriminate; try congruence; try lia.

Lemma glitching_fire id s : glitching s -> glitching (fire id s).
Proof.
  destruct s; intros H; unfold glitching in H; cbn in H.
  exec; glitching_tac; glitching_cases; glitching_close.
Qed.

Lemma glitching_step s e : glitching s -> glitching (step s e).
Proof.
  intros H; destruct e.
  4: { unfold step, elapse; apply fold_fire_inv.
       - intros id s'; apply glitching_fire.
       - destruct s; exact H. }
  all: destruct s; unfold glitching in H; cbn in H.
  all: exec; glitching_tac; glitching_cases; glitching_close.
Qed.

Lemma glitching_run es : glitching (run es).
Proof.
  apply run_ind; [|intros; now apply glitching_step].
  unfold glitching; cbn; repeat split; try discriminate; try lia.
Qed.

(** X14.  While the render loop runs, [scene$] has emitted one scene for
    each tick and two more for each consumption detected by [appleEaten$]:
    one when [apples$] emits and one when [score$] emits, both before the
    snake of that tick arrives.  After the game is over it has emitted no
    more than that. *)
Theorem scenes_per_tick_and_consumption es :
  let s := run es in
  let scenes := List.length (collect as_scene (trace s)) in
  let ticks := List.length (collect as_tick (trace s)) in
  (scenes <= ticks + 2 * detected (trace s))%nat /\
  (if live (game s)
   then scenes = (ticks + 2 * detected (trace s))%nat
   else True).
Proof.
  cbv zeta; unfold detected.
  destruct (glitching_run es) as (_ & _ & _ & _ & _ & Hz & Hle & Hl).
  cbv zeta in Hz, Hle, Hl; split; [exact Hle|].
  destruct (live (game (run es))); [|exact I].
  destruct (Hl eq_refl) as (_ & H0 & H1).
  destruct (List.length (collect as_tick (trace (run es)))) eqn:E.
  - destruct (H0 eq_refl) as [_ ->]; rewrite (Hz eq_refl); reflexivity.
  - destruct H1 as (_ & _ & _ & H); [discriminate | exact H].
Qed.

(** *** [apples$] *)

Ltac feeding_tac :=
  unfold feeding, distinctUntilChanged in *; updates; observe;
  repeat match goal with
         | H : negb _ = true |- _ => apply negb_true_iff in H
         | H : negb _ = false |- _ => apply negb_false_iff in H
         | H : _ /\ _ |- _ => destruct H
         end;
  subst;
  try match goal with
      | |- context [collect as_apples ?tr] =>
          is_var tr; destruct (collect as_apples tr) as [|? ?]
      end;
  cbn [hd_error chain] in *;
  repeat match goal with
         | H : _ /\ _ |- _ => destruct H
         | H : Some _ = Some _ |- _ => injection H as H; subst
         | H : negb _ = true |- _ => apply negb_true_iff in H
         | H : negb _ = false |- _ => apply negb_false_iff in H
         end;
  repeat split; try assumption; try discriminate; try apply same_refl;
  try congruence.

Lemma feeding_fire id s : feeding s -> feeding (fire id s).
Proof.
  destruct s; intros H; unfold feeding in H; cbn in H.
  exec; feeding_tac.
Qed.

Lemma feeding_step s e : feeding s -> feeding (step s e).
Proof.
  intros H; destruct e.
  4: { unfold step, elapse; apply fold_fire_inv.
       - intros id s'; apply feeding_fire.
       - destruct s; exact H. }
  all: destruct s; unfold feeding in H; cbn in H.
  all: exec; feeding_tac.
Qed.

Lemma feeding_run es : feeding (run es).
Proof.
  apply run_ind; [|intros; now apply feeding_step].
  unfold feeding; cbn; repeat split.
Qed.

(** X15.  [apples$] never emits the object it emitted last, and what it
    emitted last is, by identity, the food list [scan(eat)] holds; as long
    as it has emitted nothing, that list is [generateApples()]. *)
Theorem food_never_repeats es :
  let s := run es in
  chain (fun newer older => same older newer = false)
        (collect as_apples (trace s)) /\
  match latest as_apples (trace s) with
  | Some l => same l (apples_acc s) = true
  | None => apples_acc s = generateApples
  end.
Proof. cbv zeta; destruct (feeding_run es) as (_ & H1 & H2); auto. Qed.

(** *** The tick source across a change of the interval *)

Lemma restarted_step s e :
  ticking s ->
  skipped s = Nat.min 1 (List.length (collect as_apples (trace s))) ->
  restarted s (step s e) e.
Proof.
  intros (t & Ht & Hi & Hn & Hp & Hv & Hd & Hf & Hc) Hk.
  destruct s, t as [id p d]; cbn in Ht, Hi, Hn, Hp, Hv, Hd, Hf, Hc, Hk; subst.
  destruct e; exec.
  all: unfold restarted, ticked; updates; readers; cbn [tid period due].
  all: repeat match goal with
         | H : (_ <=? _) = _ |- _ => rewrite H
         end.
  all: (split; [reflexivity|]); do 2 eexists.
  all: (split; [reflexivity|]); (split; [reflexivity|]);
    (split; [reflexivity|]); cbn [tid period due].
  all: bools; destruct (collect as_apples trace0) as [|? ?];
    cbn [List.length Nat.min Nat.pred] in *.
  all: match goal with
       | |- context [(?a =? ?b)%nat] => destruct (Nat.eqb_spec a b)
       end.
  all: repeat split; try reflexivity; try lia.
Qed.

(** C4.  [ticks$] switches to the latest interval.  At any moment exactly
    one timer runs; it belongs to the current inner subscription of
    [switchMap], its period is [SPEED], the latest interval sent to
    [speedSubject], and it is due within one period.  A tick is delivered
    exactly when the timer is due, at most one in a transition, no two
    ticks share an instant, and every tick is handed on to [snake$].  As long as no consumption is detected the same
    timer goes on with the same period.  When one is detected, [SPEED]
    becomes [incrementSnakeSpeed(SPEED)], the old timer is gone and the only
    timer is a new one with that interval, first due one full new period
    later. *)
Theorem ticks_switch_to_latest es :
  let s := run es in
  (exists t,
     timers s = [t] /\ switch_inner s = Some (tid t) /\
     (tid t < next_tid s)%nat /\
     period t = SPEED s /\
     latest as_speed (trace s) = Some (period t) /\
     now s < due t <= now s + delay (period t)) /\
  chain (fun newer older => older < newer) (collect as_tick (trace s)) /\
  List.length (collect as_snake (trace s)) =
    List.length (collect as_tick (trace s)) /\
  (forall e, switched s (step s e) /\ restarted s (step s e) e).
Proof.
  cbv zeta; pose proof (ticking_run es) as H; split; [|split; [|split]].
  - destruct H as (t & Ht & Hi & Hn & Hp & Hv & Hd & _).
    exists t; repeat split; try assumption; try lia; congruence.
  - destruct H as (t & _ & _ & _ & _ & _ & _ & _ & Hc); exact Hc.
  - apply sampling_run.
  - intros e; split; [now apply switched_step|].
    apply restarted_step; [exact H | apply counting_run].
Qed.

(** *** What [scene$] emits in a transition *)

Lemma composed_step s e :
  ticking s -> composing s -> glitching s -> sampling s -> counting s ->
  composed s (step s e).
Proof.
  intros (t & Ht & _) Hc Hg Hs Hk; destruct s, t as [id p d].
  unfold composing, glitching, sampling, counting in *.
  cbn in Ht, Hc, Hg, Hs, Hk; subst.
  destruct Hc as (_ & Hal & Hcl).
  destruct Hg as (Hd & Hl & Hp & Hsk & _ & Hz & _ & Hgl).
  destruct Hs as (_ & _ & _ & _ & _ & _ & Hn & _).
  destruct Hk as (_ & _ & _ & _ & Hsc).
  destruct e; unfold step, elapse; updates; exec; unfold composed; updates;
    observe; cbn [live] in *.
  all: repeat match goal with
         | |- context [live ?g] => is_var g; destruct g
         end; cbn [live] in *; try reflexivity.
  all: rewrite ?Nat.eqb_refl; try reflexivity.
  all: repeat match goal with
         | H : true = true -> _ |- _ => specialize (H eq_refl)
         | H : _ /\ _ |- _ => destruct H
         end.
  all: bools; unfold distinctUntilChanged in *.
  all: destruct (collect as_tick trace0) as [|? ?];
    destruct (collect as_apples trace0) as [|? [|? ?]];
    destruct (collect as_snake trace0) as [|? ?];
    cbn [List.length hd_error Nat.pred Nat.min] in *;
    repeat match goal with
         | H : ?x = ?x -> _ |- _ => specialize (H eq_refl)
         | H : S _ <> 0%nat -> _ |- _ => specialize (H ltac:(discriminate))
         | H : 0%nat <> 0%nat -> _ |- _ => clear H
         | H : S _ = 0%nat -> _ |- _ => clear H
         | H : _ /\ _ |- _ => destruct H
         end; subst; cbn beta iota in *;
    try discriminate; try lia; try congruence.
  all: try match goal with
           | H : true = false |- _ => discriminate H
           | H : false = true |- _ => discriminate H
           | H : None = Some _ |- _ => discriminate H
           | H : Some _ = None |- _ => discriminate H
           end.
  all: repeat match goal with
         | |- context [(?a =? ?b)%nat] =>
             destruct (Nat.eqb_spec a b); try lia
         end.
  all: subst; do 3 eexists; (split; [reflexivity|]); (split; [reflexivity|]).
  all: repeat match goal with
         | H : Some _ = Some _ |- _ => injection H as H; subst
         | H : negb _ = true |- _ => apply negb_true_iff in H
         end.
  all: cbn [scan] in *.
  all: first
         [ split; [symmetry; eassumption | reflexivity]
         | split; [eassumption | reflexivity]
         | split; [reflexivity|]; do 3 eexists;
           repeat split; try reflexivity; try eassumption;
           try (symmetry; eassumption) ].
Qed.

(** C7, as the code has it.  Nothing is emitted by [scene$] before each of
    [snake$], [apples$] and [score$] has emitted, and every scene is made of
    values they emitted earlier; whenever an event has been processed, the
    scene that an animation frame would sample is the composite of the latest
    value of each of the three.  While the render loop is subscribed, a
    transition without a tick emits no scene and a tick emits that
    composite; in a tick that detects a consumption two scenes are emitted
    before it, which pair the new score, and then the new score and the new
    food, with the snake of the tick before. *)
Theorem scenes_combine_delivered_values es :
  let s := run es in
  grounded (trace s) /\
  (forall sc, sample s = Some sc -> composite (trace s) sc) /\
  (forall e, composed s (step s e)).
Proof.
  cbv zeta; destruct (composing_run es) as (Hg & _ & Hl).
  split; [exact Hg|]; split.
  - unfold sample; intros sc Hsc.
    destruct (live (game (run es))); [|discriminate].
    destruct (Hl eq_refl) as (H1 & H2 & H3 & _ & H4).
    rewrite Hsc in H4; destruct H4 as (H5 & H6 & H7).
    unfold composite; repeat split; congruence.
  - intros e; apply composed_step.
    + apply ticking_run.
    + apply composing_run.
    + apply glitching_run.
    + apply sampling_run.
    + apply counting_run.
Qed.

End Facts.

(** ** The rules engine *)

Lemma existsb_point_In (p : Point2D) (l : list Point2D) :
  existsb (point_eqb p) l = true <-> In p l.
Proof.
  rewrite existsb_exists; split.
  - intros (q & Hq & He); apply point_eqb_eq in He; subst; exact Hq.
  - intros Hp; exists p; split; [exact Hp | now apply point_eqb_eq].
Qed.

Lemma remove_cell_length (c : Point2D) (cells : list Point2D) :
  In c cells ->
  S (List.length (GameUtil.remove_cell c cells)) = List.length cells.
Proof.
  induction cells as [|d rest IH]; cbn; [tauto|].
  destruct (point_eqb c d) eqn:E; [reflexivity|].
  intros [Hd | Hr].
  - subst; assert (point_eqb c c = true) by now apply point_eqb_eq.
    congruence.
  - cbn; now rewrite IH.
Qed.

(** C5.  A paused [move] returns the snake it was given, whatever the
    direction and the target length.  An unpaused [move] whose target length
    is the current length [L] keeps the length, puts the old head plus the
    direction vector in front, and the old head comes second (a snake of one
    cell has no second cell). *)
Theorem move_paused_or_one_step (snake : Snake) (direction : Direction) :
  (forall snakeLength,
     GameUtil.move snake (direction, snakeLength, true) = snake) /\
  (forall head body,
     snake = head :: body ->
     let L := List.length snake in
     let snake' := GameUtil.move snake (direction, Z.of_nat L, false) in
     List.length snake' = L /\
     hd_error snake' =
       Some {| x := x head + x (val direction);
               y := y head + y (val direction) |} /\
     (body <> [] -> nth_error snake' 1 = Some head)).
Proof.
  split; [reflexivity|].
  intros head body ->; cbv zeta; unfold GameUtil.move.
  rewrite Nat2Z.id; cbn [List.length firstn hd_error].
  repeat split.
  - f_equal; rewrite firstn_length_le; cbn; lia.
  - destruct body; [congruence | reflexivity].
Qed.

Lemma free_In (occupied : list Point2D) (p : Point2D) :
  GameUtil.free occupied p = true <-> ~ In p occupied.
Proof.
  unfold GameUtil.free; rewrite negb_true_iff, <- not_true_iff_false.
  now rewrite existsb_point_In.
Qed.

Lemma In_rotate {A} (n : nat) (l : list A) (a : A) :
  In a (skipn n l ++ firstn n l) <-> In a l.
Proof.
  rewrite <- (firstn_skipn n l) at 3; rewrite !in_app_iff; tauto.
Qed.

(** The generator answers with a cell of the grid that is not occupied,
    whenever the grid has one. *)
Lemma replacement_free (COLS ROWS g : Z) (occupied : list Point2D) (p : Point2D) :
  In p (GameUtil.grid COLS ROWS) -> ~ In p occupied ->
  let c := fst (GameUtil.replacement COLS ROWS g occupied) in
  In c (GameUtil.grid COLS ROWS) /\ ~ In c occupied.
Proof.
  intros Hp Hfree; cbv zeta; unfold GameUtil.replacement; cbn [fst].
  destruct (find _ _) as [c|] eqn:E.
  - apply find_some in E as [Hc Hf].
    apply In_rotate in Hc; apply free_In in Hf; auto.
  - exfalso; apply find_none with (x := p) in E.
    + apply free_In in Hfree; congruence.
    + now apply In_rotate.
Qed.

(** C6.  When the head is on no food cell, [eat] returns the very object it
    was given.  When the head is on a food cell, it returns a new array of
    the same size: the food without that cell, followed by one replacement
    cell; and as long as the grid has a cell that is on neither the snake
    nor the remaining food, the replacement is such a cell of the grid. *)
Theorem eat_same_or_replaced (COLS ROWS g : Z) (food : Apples) (snake : Snake) :
  let eat := GameUtil.eat Z (GameUtil.replacement COLS ROWS) in
  ((forall head, hd_error snake = Some head -> ~ In head (val food)) ->
   eat g food snake = (food, g)) /\
  (forall head,
     hd_error snake = Some head -> In head (val food) ->
     let rest := GameUtil.remove_cell head (val food) in
     let food' := fst (eat g food snake) in
     same food food' = false /\
     List.length (val food') = List.length (val food) /\
     exists c,
       val food' = rest ++ [c] /\
       (forall p,
          In p (GameUtil.grid COLS ROWS) -> ~ In p snake -> ~ In p rest ->
          In c (GameUtil.grid COLS ROWS) /\ ~ In c snake /\ ~ In c rest)).
Proof.
  cbv zeta; split.
  - intros Hfree; destruct snake as [|head body]; [reflexivity|].
    unfold GameUtil.eat.
    destruct (existsb (point_eqb head) (val food)) eqn:E; [|reflexivity].
    apply existsb_point_In in E; now destruct (Hfree head eq_refl).
  - intros head Hhead Hin; destruct snake as [|h body]; [discriminate|].
    injection Hhead as ->; unfold GameUtil.eat.
    apply existsb_point_In in Hin as E; rewrite E.
    pose proof (replacement_free COLS ROWS g
                  ((head :: body) ++ GameUtil.remove_cell head (val food)))
      as Hr.
    destruct (GameUtil.replacement COLS ROWS g _) as [c g'].
    cbn [fst val addr] in *; repeat split.
    + unfold same; cbn [addr]; apply Nat.eqb_neq; lia.
    + rewrite length_app; cbn [List.length].
      rewrite <- (remove_cell_length head (val food) Hin); lia.
    + exists c; split; [reflexivity|]; intros p Hp Hs Hf.
      destruct (Hr p Hp) as [Hg Ho].
      * rewrite in_app_iff; tauto.
      * rewrite in_app_iff in Ho; tauto.
Qed.

(** C8.  [incrementSnakeSpeed] never returns less than the minimum interval
    and returns strictly less than an interval above it; in every run the
    intervals sent to the tick source never increase and never go below the
    minimum.  The step is positive and the minimum is at most the initial
    interval. *)
Theorem tick_interval_never_increases {imports : Imports}
        (SPEED_STEP MIN_SPEED : Z) es :
  0 < SPEED_STEP ->
  MIN_SPEED <= 150 ->
  (forall v,
     incrementSnakeSpeed v =
       GameUtil.incrementSnakeSpeed SPEED_STEP MIN_SPEED v) ->
  (forall v, MIN_SPEED <= incrementSnakeSpeed v) /\
  (forall v, MIN_SPEED < v -> incrementSnakeSpeed v < v) /\
  chain (fun newer older => newer <= older)
        (collect as_speed (trace (run es))) /\
  Forall (fun v => MIN_SPEED <= v) (collect as_speed (trace (run es))) /\
  latest as_speed (trace (run es)) = Some (SPEED (run es)).
Proof.
  intros Hstep Hmin Hinc.
  assert (Hle : forall v, MIN_SPEED <= incrementSnakeSpeed v)
    by (intros v; rewrite Hinc; unfold GameUtil.incrementSnakeSpeed; lia).
  assert (Hlt : forall v, MIN_SPEED < v -> incrementSnakeSpeed v < v)
    by (intros v Hv; rewrite Hinc; unfold GameUtil.incrementSnakeSpeed; lia).
  split; [exact Hle|]; split; [exact Hlt|].
  destruct (slowing_run MIN_SPEED Hmin) with (es := es) as (Hv & Hc & Hf).
  - intros v Hv; split; [apply Hle|].
    rewrite Hinc; unfold GameUtil.incrementSnakeSpeed; lia.
  - repeat split; assumption.
Qed.

(** ** The concrete game *)

(** C2, on the code.  The game starts moving down.  When the first key
    pressed is the up arrow, [direction$] emits up and the next tick moves
    the snake up, although [nextDirection] rejects up after down. *)
Theorem first_key_reverses_initial_direction :
  let up := mkDirection 2 0 (-1) in
  let s := Demo.play [Demo.P 4 2; Demo.P 9 9] [Demo.keydown "ArrowUp"] in
  latest as_direction (trace (Demo.play [Demo.P 4 2; Demo.P 9 9] [])) =
    Some (heading IndexTs.INITIAL_DIRECTION) /\
  val IndexTs.INITIAL_DIRECTION = Demo.P 0 1 /\
  GameUtil.nextDirection IndexTs.INITIAL_DIRECTION up =
    IndexTs.INITIAL_DIRECTION /\
  latest as_direction (trace s) = Some (heading up) /\
  wl_direction s = Some (heading up) /\
  hd_error (snake_acc (Demo.play [Demo.P 4 2; Demo.P 9 9]
                         (Demo.keydown "ArrowUp" :: Demo.ms 150))) =
    Some (Demo.P 4 (-1)).
Proof. vm_compute; repeat split. Qed.

(** C1, on the code.  The apple is directly below the head.  The first tick
    moves the head onto it and [eat] replaces it, but this is the first
    emission of [apples$], which [skip(1)] drops: the score stays 0, the
    target length stays 5 and the interval stays 150. *)
Theorem first_tick_apple_not_counted :
  let s := Demo.play [Demo.P 4 1; Demo.P 9 9] (Demo.ms 150) in
  hd_error (snake_acc s) = Some (Demo.P 4 1) /\
  val (apples_acc s) = [Demo.P 9 9; Demo.P 7 0] /\
  collect as_apples (trace s) = [apples_acc s] /\
  detected (trace s) = 0%nat /\
  score_acc s = Some 0 /\
  latest as_score (trace s) = Some 0 /\
  wl_snakeLength s = Some 5 /\
  SPEED s = 150.
Proof. vm_compute; repeat split. Qed.

(** The same apple one cell further is eaten on the second tick and counted. *)
Example second_tick_apple_counted :
  let s := Demo.play [Demo.P 4 2; Demo.P 9 9] (Demo.ms 300) in
  hd_error (snake_acc s) = Some (Demo.P 4 2) /\
  val (apples_acc s) = [Demo.P 9 9; Demo.P 7 0] /\
  detected (trace s) = 1%nat /\
  score_acc s = Some 1 /\
  wl_snakeLength s = Some 6 /\
  SPEED s = 140.
Proof. vm_compute; repeat split. Qed.

(** C7 fails on the code as it is stated.  The apple at (4, 2) is eaten on
    the second tick.  In that tick [score$] reaches [combineLatest] before
    the new food and the new snake do, and the scene emitted then (the third
    newest observation) holds the snake and the food of the first tick,
    although [snake$] and [apples$] have already emitted those of the
    second. *)
Lemma scene_with_stale_snake_and_food :
  let tr := trace (Demo.play [Demo.P 4 2; Demo.P 9 9] (Demo.ms 300)) in
  let stale :=
    {| snake := [Demo.P 4 1; Demo.P 4 0; Demo.P 3 0; Demo.P 2 0; Demo.P 1 0];
       apples := Demo.food [Demo.P 4 2; Demo.P 9 9];
       score := 1 |} in
  nth_error tr 2 = Some (OScene stale) /\
  latest as_snake (skipn 3 tr) =
    Some [Demo.P 4 2; Demo.P 4 1; Demo.P 4 0; Demo.P 3 0; Demo.P 2 0] /\
  latest as_apples (skipn 3 tr) =
    Some {| addr := 1; val := [Demo.P 9 9; Demo.P 7 0] |} /\
  (every_scene_composite tr -> False).
Proof.
  cbv zeta; split; [vm_compute; reflexivity|].
  split; [vm_compute; reflexivity|]; split; [vm_compute; reflexivity|].
  intros Hall.
  pose proof (proj1 (Hall 2%nat _ ltac:(vm_compute; reflexivity))) as Hs.
  vm_compute in Hs; discriminate Hs.
Qed.

(** The snake runs into the bottom wall at the twentieth tick.  The frame
    after the second tick renders the scene; the first frame after the
    collision ends the loop with one [renderGameOver]; later frames and ticks
    change nothing for the renderer and [scene$] emits no more. *)
Example wall_ends_render_loop :
  let before :=
    Demo.ms 300 ++ [AnimationFrame] ++ Demo.ms 2700 in
  let after :=
    [AnimationFrame; AnimationFrame] ++ Demo.ms 300 ++ [AnimationFrame] in
  let s := Demo.play [Demo.P 9 9; Demo.P 10 10] (before ++ after) in
  hd_error (snake_acc (Demo.play [Demo.P 9 9; Demo.P 10 10] before)) =
    Some (Demo.P 4 20) /\
  calls (trace s) =
    [ORenderScene
       {| snake := [Demo.P 4 2; Demo.P 4 1; Demo.P 4 0; Demo.P 3 0; Demo.P 2 0];
          apples := Demo.food [Demo.P 9 9; Demo.P 10 10];
          score := 0 |};
     ORenderGameOver] /\
  game s = Completed /\
  List.length (collect as_scene (trace s)) = 20%nat.
Proof. vm_compute; repeat split. Qed.

(** The hypothesis of C10 holds before the first tick. *)
Lemma no_render_before_first_scene_witness :
  latest as_scene
    (trace (Demo.play [Demo.P 4 2; Demo.P 9 9]
              (Demo.ms 100 ++ [AnimationFrame]))) = None /\
  calls (trace (Demo.play [Demo.P 4 2; Demo.P 9 9]
                  (Demo.ms 100 ++ [AnimationFrame]))) = [].
Proof.
  split; [vm_compute; reflexivity|].
  unfold Demo.play.
  apply no_render_before_first_scene; vm_compute; reflexivity.
Defined.

(** The constants of the concrete game meet the hypotheses of C8. *)
Lemma tick_interval_never_increases_witness :
  0 < 10 /\ 50 <= 150 /\
  collect as_speed (trace (Demo.play [Demo.P 4 2; Demo.P 9 9] (Demo.ms 300))) =
    [140; 150] /\
  chain (fun newer older => newer <= older)
        (collect as_speed
           (trace (Demo.play [Demo.P 4 2; Demo.P 9 9] (Demo.ms 300)))).
Proof.
  split; [reflexivity|]; split; [discriminate|]; split; [reflexivity|].
  unfold Demo.play.
  refine (proj1 (proj2 (proj2
    (@tick_interval_never_increases (Demo.game [Demo.P 4 2; Demo.P 9 9])
       10 50 (Demo.ms 300) _ _ (fun v => eq_refl))))); [reflexivity | discriminate].
Defined.

(** The head at (4, 1) is on a food cell of the 20 x 20 grid, (7, 0) is
    free, and the replacement is that cell. *)
Lemma eat_same_or_replaced_witness :
  let snake1 :=
    [Demo.P 4 1; Demo.P 4 0; Demo.P 3 0; Demo.P 2 0; Demo.P 1 0] in
  let food0 := Demo.food [Demo.P 4 1; Demo.P 9 9] in
  let food' := fst (GameUtil.eat Z (GameUtil.replacement 20 20) 7 food0 snake1) in
  In (Demo.P 4 1) (val food0) /\
  In (Demo.P 7 0) (GameUtil.grid 20 20) /\
  same food0 food' = false /\
  List.length (val food') = 2%nat /\
  val food' = [Demo.P 9 9; Demo.P 7 0].
Proof.
  cbv zeta; split; [left; reflexivity|].
  split; [vm_compute; tauto|].
  pose proof (proj2 (eat_same_or_replaced 20 20 7
                       (Demo.food [Demo.P 4 1; Demo.P 9 9])
                       [Demo.P 4 1; Demo.P 4 0; Demo.P 3 0; Demo.P 2 0;
                        Demo.P 1 0])
                (Demo.P 4 1) eq_refl (or_introl eq_refl)) as Hw.
  cbv zeta in Hw; destruct Hw as (H1 & H2 & _).
  split; [exact H1|]; split; [exact H2|]; reflexivity.
Defined.

(** ** The tables and the concrete game in the further properties *)

(** A lookup in a table of [src/index.ts] answers with an entry, a unit
    vector, or with a property inherited from [Object.prototype], which has
    no coordinates and is no entry of a table. *)
Lemma position_from (k : string) (names : list string) (n a : nat) :
  position k names n = Some a -> (n <= a)%nat.
Proof.
  revert n; induction names as [|name rest IH]; intros n; cbn; [discriminate|].
  destruct (String.eqb k name); [intros [= <-]; lia|].
  intros H; apply IH in H; lia.
Qed.

Lemma Object_prototype_no_entry (k : string) (d : Heading) :
  Object_prototype k = Some d -> val d = None /\ (8 <= addr d)%nat.
Proof.
  unfold Object_prototype.
  destruct (position k Object_prototype_names 8) as [a|] eqn:E;
    [|discriminate].
  intros [= <-]; split; [reflexivity | exact (position_from _ _ _ _ E)].
Qed.

Lemma IndexTs_toDirection_entry_or_inherited (e : Event) (d : Heading) :
  IndexTs.toDirection e = Some d ->
  (is_unit d /\ (addr d < 8)%nat) \/ (val d = None /\ (8 <= addr d)%nat).
Proof.
  unfold IndexTs.toDirection, IndexTs.DIRECTIONS, IndexTs.DIRECTIONS_BUTTON.
  destruct e as [k|id| |]; try discriminate.
  all: repeat match goal with
         | |- context [if String.eqb ?a ?b then _ else _] =>
             destruct (String.eqb a b)
         end.
  all: try discriminate.
  all: try (intros [= <-]; left; cbn; split; [tauto | lia]).
  all: intros H; right; exact (Object_prototype_no_entry _ _ H).
Qed.

(** The table of the second entry file holds unit vectors only, whatever
    [keyToCode] is. *)
Lemma Part000_toDirection_unit (e : Event) (d : Direction) :
  Part000.toDirection e = Some d -> unit_vector (val d).
Proof.
  unfold Part000.toDirection, Part000.DIRECTIONS.
  destruct e; try discriminate.
  repeat match goal with
         | |- context [Z.eqb ?a ?b] => destruct (Z.eqb a b)
         end.
  all: try discriminate; intros [= <-]; cbn; tauto.
Qed.

Lemma Part000_INITIAL_DIRECTION_unit (keyToCode : string -> Z) (d : Direction) :
  Part000.INITIAL_DIRECTION keyToCode = Some d -> unit_vector (val d).
Proof.
  unfold Part000.INITIAL_DIRECTION; intros H.
  apply (Part000_toDirection_unit
           (KeyDown {| key := "ArrowDown"%string;
                      keyCode := keyToCode "down_arrow"%string |})).
  exact H.
Qed.

Lemma nextHeading_selects (p r : Heading) :
  GameUtil.nextHeading p r = p \/ GameUtil.nextHeading p r = r.
Proof.
  unfold GameUtil.nextHeading.
  destruct (val p), (val r); auto.
  destruct (GameUtil.opposite _ _); auto.
Qed.

(** On directions [nextHeading] and [moveHeading] are [nextDirection] and
    [move]. *)
Lemma nextHeading_direction (p r : Direction) :
  GameUtil.nextHeading p r = heading (GameUtil.nextDirection p r).
Proof.
  unfold GameUtil.nextHeading, GameUtil.nextDirection; cbn.
  destruct (GameUtil.opposite _ _); reflexivity.
Qed.

Lemma moveHeading_direction (snake : Snake) (d : Direction) (l : Z) (p : bool) :
  GameUtil.moveHeading snake (heading d, l, p) = GameUtil.move snake (d, l, p).
Proof. destruct d; reflexivity. Qed.

(** A key whose name is a property of [Object.prototype] passes the
    [filter]: [direction$] emits the inherited function and the next tick
    hands it to [move]. *)
Example inherited_key_is_emitted :
  let s := Demo.play [Demo.P 4 2; Demo.P 9 9] [Demo.keydown "constructor"] in
  latest as_direction (trace s) = Some {| addr := 8; val := None |} /\
  wl_direction s = Some {| addr := 8; val := None |} /\
  IndexTs.toDirection (Click "toString") =
    IndexTs.toDirection (Demo.keydown "toString") /\
  IndexTs.toDirection (Demo.keydown "x") = None.
Proof. vm_compute; repeat split. Qed.

(** The snake has left the grid after 3000 ms and the next animation frame
    ends the game; 300 ms later nothing more was displayed and the timer is
    still there. *)
Lemma game_over_freezes_the_display_witness :
  let es := Demo.ms 3000 ++ [AnimationFrame] in
  game (Demo.play [Demo.P 9 9; Demo.P 10 10] es) = Completed /\
  displayed (Demo.play [Demo.P 9 9; Demo.P 10 10] (es ++ Demo.ms 300)) =
    displayed (Demo.play [Demo.P 9 9; Demo.P 10 10] es) /\
  timers (Demo.play [Demo.P 9 9; Demo.P 10 10] (es ++ Demo.ms 300)) <> [].
Proof.
  cbv zeta; split; [vm_compute; reflexivity|].
  unfold Demo.play.
  apply (@game_over_freezes_the_display (Demo.game [Demo.P 9 9; Demo.P 10 10])).
  vm_compute; reflexivity.
Defined.

(** After ArrowRight, ArrowLeft is turned down by [nextDirection]. *)
Lemma rejected_request_is_silent_witness :
  let cells := [Demo.P 4 2; Demo.P 9 9] in
  let es := [Demo.keydown "ArrowRight"] in
  let e := Demo.keydown "ArrowLeft" in
  @input (Demo.game cells) e = Some (heading (mkDirection 0 (-1) 0)) /\
  @resolved (Demo.game cells) (@inputs (Demo.game cells) es) =
    Some (heading (mkDirection 1 1 0)) /\
  GameUtil.nextHeading (mkDirection 1 1 0) (mkDirection 0 (-1) 0) =
    heading (mkDirection 1 1 0) /\
  collect as_direction (trace (step (Demo.play cells es) e)) =
    collect as_direction (trace (Demo.play cells es)) /\
  wl_direction (step (Demo.play cells es) e) =
    wl_direction (Demo.play cells es).
Proof.
  cbv zeta; split; [reflexivity|]; split; [reflexivity|];
    split; [reflexivity|].
  unfold Demo.play.
  apply (@rejected_request_is_silent (Demo.game [Demo.P 4 2; Demo.P 9 9])
           [Demo.keydown "ArrowRight"] (Demo.keydown "ArrowLeft")
           (heading (mkDirection 0 (-1) 0)) (heading (mkDirection 1 1 0)));
    reflexivity.
Defined.

(** The space bar is pressed at once; the tick at 150 ms leaves the snake
    where it was. *)
Lemma paused_snake_stands_still_witness :
  let cells := [Demo.P 4 2; Demo.P 9 9] in
  let es := Demo.keydown " " :: Demo.ms 149 in
  (forall sn d l, GameUtil.moveHeading sn (d, l, true) = sn) /\
  Nat.odd (@pause_presses (Demo.game cells) es) = true /\
  collect as_tick (trace (step (Demo.play cells es) Elapse)) = [150] /\
  snake_acc (step (Demo.play cells es) Elapse) =
    snake_acc (Demo.play cells es).
Proof.
  cbv zeta; split; [intros sn d l; unfold GameUtil.moveHeading;
                    destruct (val d); reflexivity|].
  split; [vm_compute; reflexivity|].
  split; [vm_compute; reflexivity|].
  unfold Demo.play.
  apply (@paused_snake_stands_still (Demo.game [Demo.P 4 2; Demo.P 9 9]));
    [intros sn d l; cbn; unfold GameUtil.moveHeading;
     destruct (val d); reflexivity | vm_compute; reflexivity].
Defined.

(** The arrow keys and the buttons of the page map to unit vectors, and so
    do the initial direction and the answers of the rule of the concrete
    game. *)
Lemma directions_are_unit_vectors_witness :
  let cells := [Demo.P 4 2; Demo.P 9 9] in
  let es := [Demo.keydown "ArrowLeft"; Click "up"; Demo.keydown "x"] in
  is_unit (heading IndexTs.INITIAL_DIRECTION) /\
  Forall is_unit (@inputs (Demo.game cells) es) /\
  Forall is_unit (collect as_direction (trace (Demo.play cells es))).
Proof.
  cbv zeta.
  assert (Hi : is_unit (heading IndexTs.INITIAL_DIRECTION)) by (cbn; tauto).
  assert (Hu : Forall is_unit
                (@inputs (Demo.game [Demo.P 4 2; Demo.P 9 9])
                   [Demo.keydown "ArrowLeft"; Click "up"; Demo.keydown "x"]))
    by (repeat constructor; cbn; tauto).
  split; [exact Hi|]; split; [exact Hu|].
  unfold Demo.play.
  apply (@directions_are_unit_vectors (Demo.game [Demo.P 4 2; Demo.P 9 9])
           Hi nextHeading_selects _ Hu).
Defined.
